(** * fade-compendiums: the database-to-filesystem converter

    A shallow embedding of [scripts/build/dbConvert.mjs] (class [dbConvert])
    and the properties of its extraction pipeline.

    Layout: Part I holds the data model and the program, Part II the lemmas
    and theorems. *)

From Stdlib Require Import List NArith ZArith Bool Ascii String Lia DecimalString.
Import ListNotations.
Local Open Scope N_scope.
Set Warnings "-register-all".

(* ===================================================================== *)
(** * Part I.  Definitions                                                *)
(* ===================================================================== *)

(** ** JavaScript strings

    A JavaScript string is a sequence of UTF-16 code units.  The regular
    expressions of the source carry no [u] flag, so they work code unit by
    code unit, and so does this model. *)

Definition jsstring := list N.

(** An ASCII literal as a JavaScript string. *)
Definition u (s : string) : jsstring :=
  map N_of_ascii (list_ascii_of_string s).

Definition BANG : N := 33.        (* ! *)
Definition DOT : N := 46.         (* . *)
Definition UNDERSCORE : N := 95.  (* _ *)

Fixpoint str_eqb (a b : jsstring) : bool :=
  match a, b with
  | [], [] => true
  | x :: a', y :: b' => (x =? y) && str_eqb a' b'
  | _, _ => false
  end.

Definition is_empty {A : Type} (l : list A) : bool :=
  match l with [] => true | _ => false end.

(** [s.startsWith(prefix)] *)
Fixpoint startsWith (s prefix : jsstring) {struct prefix} : bool :=
  match prefix, s with
  | [], _ => true
  | p :: prefix', c :: s' => (c =? p) && startsWith s' prefix'
  | _ :: _, [] => false
  end.

(** [s.includes(c)] for a one-character needle. *)
Definition includes (c : N) (s : jsstring) : bool :=
  existsb (N.eqb c) s.

(** [s.split(sep)] for a one-character separator: every occurrence splits,
    and the result always has at least one part. *)
Fixpoint split (sep : N) (s : jsstring) : list jsstring :=
  match s with
  | [] => [[]]
  | c :: r =>
      if c =? sep then [] :: split sep r
      else match split sep r with
           | p :: ps => (c :: p) :: ps
           | [] => [[c]]
           end
  end.

(** ECMAScript LineTerminator: LF, CR, LS, PS.  The regex atom [.] matches
    every code unit but these. *)
Definition is_line_terminator (c : N) : bool :=
  (c =? 10) || (c =? 13) || (c =? 0x2028) || (c =? 0x2029).

(** ECMAScript WhiteSpace: TAB, VT, FF, SP, NBSP, ZWNBSP and category Zs. *)
Definition is_white_space (c : N) : bool :=
  (c =? 9) || (c =? 11) || (c =? 12) || (c =? 32) || (c =? 160)
  || (c =? 0x1680) || ((0x2000 <=? c) && (c <=? 0x200a))
  || (c =? 0x202f) || (c =? 0x205f) || (c =? 0x3000) || (c =? 0xfeff).

(** The class [\s], which is also the set [String.prototype.trim] strips. *)
Definition is_space (c : N) : bool :=
  is_white_space c || is_line_terminator c.

Definition is_underscore (c : N) : bool := c =? UNDERSCORE.

(** The character class of [sanitizeFilename]: the characters Windows
    forbids in a file name, white space and the ampersand. *)
Definition is_invalid (c : N) : bool :=
  (c =? 60) (* less than *) || (c =? 62) (* greater than *)
  || (c =? 58) (* colon *) || (c =? 34) (* double quote *)
  || (c =? 124) (* bar *) || (c =? 63) (* question mark *)
  || (c =? 42) (* star *) || (c =? 92) (* backslash *)
  || (c =? 47) (* slash *) || is_space c || (c =? 38) (* ampersand *).

(** [s.replace(/[class]+/g, '_')]: every maximal run of code units of the
    class becomes one underscore.  [in_run] tells that the previous code unit
    belonged to the run being replaced.  With the class [is_underscore] this
    is also [s.replace(/_{2,}/g, '_')]: a run of two or more underscores
    becomes one, and a single underscore is replaced by itself. *)
Fixpoint replace_runs (cls : N -> bool) (in_run : bool) (s : jsstring)
  : jsstring :=
  match s with
  | [] => []
  | c :: r =>
      if cls c then
        if in_run then replace_runs cls true r
        else UNDERSCORE :: replace_runs cls true r
      else c :: replace_runs cls false r
  end.

(** Removing the leading run of a class: the alternative [^_+]. *)
Fixpoint drop_leading (cls : N -> bool) (s : jsstring) : jsstring :=
  match s with
  | [] => []
  | c :: r => if cls c then drop_leading cls r else s
  end.

(** Removing the trailing run of a class: the alternative [_+$]. *)
Fixpoint drop_trailing (cls : N -> bool) (s : jsstring) : jsstring :=
  match s with
  | [] => []
  | c :: r =>
      let r' := drop_trailing cls r in
      if cls c && is_empty r' then [] else c :: r'
  end.

(** [s.replace(/^_+|_+$/g, '')] *)
Definition strip_underscores (s : jsstring) : jsstring :=
  drop_trailing is_underscore (drop_leading is_underscore s).

(** [s.trim()] *)
Definition trim (s : jsstring) : jsstring :=
  drop_trailing is_space (drop_leading is_space s).

(** Decimal digits of a natural number, as [String(n)] prints an array
    index. *)
Definition decimal (n : N) : jsstring :=
  u (NilZero.string_of_uint (N.to_uint n)).

(** ** JavaScript values

    What [JSON.parse] can produce, plus [undefined], which property access
    yields for an absent property.  An object lists its own properties in
    property enumeration order, each key once, which is the order
    [Object.entries], the spread syntax and [JSON.stringify] follow; its
    prototype is [Object.prototype] ([JSON.parse] makes [__proto__] an own
    property like any other).  [VNum z] is the number that the integer
    literal [z] denotes, which is the double nearest to [z]; numbers with a
    fraction are left out.  The program only tests numbers for truthiness
    and prints them in a template literal. *)

Inductive value : Type :=
| VUndefined
| VNull
| VBool (b : bool)
| VNum (z : Z)
| VStr (s : jsstring)
| VArr (elems : list value)
| VObj (props : list (jsstring * value)).

(** ToBoolean *)
Definition truthy (v : value) : bool :=
  match v with
  | VUndefined | VNull => false
  | VBool b => b
  | VNum z => negb (z =? 0)%Z
  | VStr s => negb (is_empty s)
  | VArr _ | VObj _ => true
  end.

(** The double nearest to a positive integer, as an integer: the 53 leading
    bits are kept and the rest is rounded off, a tie going to the even
    significand. *)
Definition nearest_double (x : Z) : Z :=
  let e := Z.max 0 (Z.log2 x - 52) in
  let q := Z.shiftr x e in
  let twice := (2 * (x - Z.shiftl q e))%Z in
  let unit := Z.shiftl 1 e in
  Z.shiftl
    (if (twice <? unit)%Z then q
     else if (unit <? twice)%Z then (q + 1)%Z
     else if Z.even q then q else (q + 1)%Z)
    e.

(** The decimal with the fewest significant digits that still denotes the
    double [x]: the multiple of the highest power [10^j] that rounds to [x],
    the nearer one when there are two, and the one with the even last digit
    when both are as near.  The result is that multiple and [j]. *)
Fixpoint shortest (j : nat) (x : Z) : Z * nat :=
  match j with
  | O => (x, O)
  | S j' =>
      let p := (10 ^ Z.of_nat j)%Z in
      let lower := (x / p * p)%Z in
      let upper := (lower + p)%Z in
      let low_ok := (0 <? lower)%Z && (nearest_double lower =? x)%Z in
      let up_ok := (nearest_double upper =? x)%Z in
      if low_ok && up_ok then
        if (x - lower <? upper - x)%Z then (lower, j)
        else if (upper - x <? x - lower)%Z then (upper, j)
        else if Z.even (lower / p) then (lower, j) else (upper, j)
      else if low_ok then (lower, j)
      else if up_ok then (upper, j)
      else shortest j' x
  end.

(** Number::toString for the number of the literal [z]: the digits of the
    shortest decimal, written out in full up to 21 digits and with an
    exponent beyond ([1e+21]); a literal past the largest double denotes
    [Infinity]. *)
Definition number_toString (z : Z) : jsstring :=
  if (z =? 0)%Z then u "0"
  else
    let sign := if (z <? 0)%Z then u "-" else [] in
    let x := nearest_double (Z.abs z) in
    if (2 ^ 1024 <=? x)%Z then sign ++ u "Infinity"
    else
      let (c, j) := shortest (List.length (decimal (Z.to_N x))) x in
      let digits := decimal (Z.to_N c) in
      let n := List.length digits in
      if (n <=? 21)%nat then sign ++ digits
      else
        let k := (n - j)%nat in
        sign ++ firstn 1 digits
          ++ (if (1 <? k)%nat then DOT :: firstn (k - 1) (skipn 1 digits)
              else [])
          ++ u "e+" ++ decimal (N.of_nat (n - 1)).

(** Insertion-ordered objects used as maps: lookup, assignment [o[k] = v]
    (in place when the key exists, appended otherwise). *)
Fixpoint assoc_get {V : Type} (k : jsstring) (o : list (jsstring * V))
  : option V :=
  match o with
  | [] => None
  | (k', v) :: r => if str_eqb k k' then Some v else assoc_get k r
  end.

(** ToString, as a template literal applies it; [None] is the [TypeError]
    it throws.  An object is first made a primitive: its [toString] method
    is called when it is callable, then its [valueOf].  A parsed object
    inherits both from [Object.prototype], which give ["[object Object]"]
    and the object itself; an own property [toString] hides the first with
    a value that cannot be called, and then no method yields a primitive.
    An array is printed by [Array.prototype.join], the elements separated
    by commas, [null] printed as nothing. *)
Fixpoint toString (v : value) : option jsstring :=
  match v with
  | VUndefined => Some (u "undefined")
  | VNull => Some (u "null")
  | VBool true => Some (u "true")
  | VBool false => Some (u "false")
  | VNum z => Some (number_toString z)
  | VStr s => Some s
  | VArr elems =>
      (fix join (l : list value) : option jsstring :=
         match l with
         | [] => Some []
         | x :: r =>
             match match x with
                   | VUndefined | VNull => Some []
                   | _ => toString x
                   end with
             | Some first =>
                 match r with
                 | [] => Some first
                 | _ :: _ =>
                     match join r with
                     | Some others => Some (first ++ 44 :: others)
                     | None => None
                     end
                 end
             | None => None
             end
         end) elems
  | VObj props =>
      match assoc_get (u "toString") props with
      | Some _ => None
      | None => Some (u "[object Object]")
      end
  end.

Fixpoint assoc_set {V : Type} (k : jsstring) (v : V) (o : list (jsstring * V))
  : list (jsstring * V) :=
  match o with
  | [] => [(k, v)]
  | (k', v') :: r =>
      if str_eqb k k' then (k', v) :: r else (k', v') :: assoc_set k v r
  end.

(** [v.name]: member access with a key that is neither an array index nor
    [length].  The receiver is never [null] or [undefined] where the program
    uses it. *)
Definition get_prop (v : value) (name : jsstring) : value :=
  match v with
  | VObj props =>
      match assoc_get name props with Some x => x | None => VUndefined end
  | _ => VUndefined
  end.

(** [o.name = x] on an object. *)
Definition set_prop (o : value) (name : jsstring) (x : value) : value :=
  match o with
  | VObj props => VObj (assoc_set name x props)
  | _ => o
  end.

Fixpoint indexed {V : Type} (i : N) (l : list V) : list (jsstring * V) :=
  match l with
  | [] => []
  | x :: r => (decimal i, x) :: indexed (N.succ i) r
  end.

(** Own enumerable properties, in order: those of an object, the indices of
    an array or of a string, none for the other primitives. *)
Definition own_entries (v : value) : list (jsstring * value) :=
  match v with
  | VObj props => props
  | VArr elems => indexed 0 elems
  | VStr s => indexed 0 (map (fun c => VStr [c]) s)
  | _ => []
  end.

(** The object literal [{ ...document }]. *)
Definition spread (document : value) : value := VObj (own_entries document).

(** ** sanitizeFilename (dbConvert.mjs, lines 136-149) *)

Definition UNNAMED : jsstring := u "unnamed".

Definition sanitizeFilename (filename : value) : jsstring :=
  match filename with
  | VStr s =>
      if negb (truthy filename) then UNNAMED
      else
        let r := trim (strip_underscores
                         (replace_runs is_underscore false
                            (replace_runs is_invalid false s))) in
        if is_empty r then UNNAMED else r
  | _ => UNNAMED
  end.

(** ** organizeDocuments (dbConvert.mjs, lines 190-241) *)

(** [key.match(/^!([^!]+)!(.+)$/)]: the type section is the non-empty run of
    code units other than [!] after the leading [!], it must be followed by
    [!], and the id section is all the rest, non-empty and free of line
    terminators (the atom [.] does not match them).  The class [[^!]] cannot
    step over a [!], so no other split of the key matches. *)
Fixpoint span_type (s : jsstring) : jsstring * jsstring :=
  match s with
  | [] => ([], [])
  | c :: r =>
      if c =? BANG then ([], s)
      else let (t, rest) := span_type r in (c :: t, rest)
  end.

Definition match_key (key : jsstring) : option (jsstring * jsstring) :=
  match key with
  | c :: s =>
      if c =? BANG then
        match span_type s with
        | ((_ :: _) as typeSection, _ :: ((_ :: _) as idSection)) =>
            if forallb (fun x => negb (is_line_terminator x)) idSection
            then Some (typeSection, idSection)
            else None
        | _ => None
        end
      else None
  | [] => None
  end.

(** The entries pushed on [embeddedDocuments[parentKey]]. *)
Record embeddedItem : Type := {
  item_key : jsstring;
  item_document : value;
  item_childType : value;
  item_childId : value
}.

(** The result [{ topLevelDocuments, embeddedDocuments }].  Both objects are
    filled by assignment with keys that start with [!], so their enumeration
    order is their insertion order. *)
Record organized : Type := {
  topLevelDocuments : list (jsstring * value);
  embeddedDocuments : list (jsstring * list embeddedItem)
}.

(** The element of an array destructuring pattern: [undefined] past the
    end. *)
Definition part (i : nat) (parts : list jsstring) : value :=
  match nth_error parts i with
  | Some s => VStr s
  | None => VUndefined
  end.

(** [`!${parentType}!${parentId}`] *)
Definition parentKeyOf (parentType parentId : value) : option jsstring :=
  match toString parentType, toString parentId with
  | Some t, Some i => Some (BANG :: t ++ BANG :: i)
  | _, _ => None
  end.

(** [embeddedDocuments[parentKey].push(item)], after the array was created
    when absent. *)
Fixpoint assoc_push {V : Type} (k : jsstring) (v : V)
  (o : list (jsstring * list V)) : list (jsstring * list V) :=
  match o with
  | [] => [(k, [v])]
  | (k', vs) :: r =>
      if str_eqb k k' then (k', vs ++ [v]) :: r
      else (k', vs) :: assoc_push k v r
  end.

(** One iteration of the first loop (lines 195-231).  The two values of the
    template literal on line 213 are parts of a split, which are strings, so
    the literal does not throw (see [parentKeyOf_parts]). *)
Definition partition_step (acc : organized) (entry : jsstring * value)
  : organized :=
  let (key, document) := entry in
  if startsWith key (u "!folders!") then acc
  else
    match match_key key with
    | Some (typeSection, idSection) =>
        if includes DOT typeSection then
          let parentType := part 0 (split DOT typeSection) in
          let childType := part 1 (split DOT typeSection) in
          let parentId := part 0 (split DOT idSection) in
          let childId := part 1 (split DOT idSection) in
          if truthy parentId && truthy childId then
            match parentKeyOf parentType parentId with
            | Some parentKey =>
                {| topLevelDocuments := topLevelDocuments acc;
                   embeddedDocuments :=
                     assoc_push parentKey
                       {| item_key := key; item_document := document;
                          item_childType := childType;
                          item_childId := childId |}
                       (embeddedDocuments acc) |}
            | None => acc
            end
          else acc
        else
          {| topLevelDocuments :=
               assoc_set key (spread document) (topLevelDocuments acc);
             embeddedDocuments := embeddedDocuments acc |}
    | None => acc
    end.

(** One iteration of the second loop (lines 234-238): the parent, when it is
    a top-level document, receives the bodies of its embedded documents. *)
Definition attach_step (top : list (jsstring * value))
  (group : jsstring * list embeddedItem) : list (jsstring * value) :=
  let (parentKey, embeddedList) := group in
  match assoc_get parentKey top with
  | Some parent =>
      assoc_set parentKey
        (set_prop parent (u "embedded") (VArr (map item_document embeddedList)))
        top
  | None => top
  end.

Definition organizeDocuments (allDocuments : list (jsstring * value))
  : organized :=
  let parts :=
    fold_left partition_step allDocuments
      {| topLevelDocuments := []; embeddedDocuments := [] |} in
  {| topLevelDocuments :=
       fold_left attach_step (embeddedDocuments parts)
         (topLevelDocuments parts);
     embeddedDocuments := embeddedDocuments parts |}.

(** ** Effects: asynchronous programs over Node's [fs] and [console]

    A path is the list of its components below the file system root.  The
    names the program joins come out of [sanitizeFilename] or are constants:
    they hold no separator, so the list of components stands for the joined
    string. *)

Definition path := list jsstring.

(** [path.join]: the segments are concatenated and normalized, which drops
    empty and [.] segments and makes [..] remove the segment before it. *)
Fixpoint normalize (seen : list jsstring) (segs : list jsstring) : path :=
  match segs with
  | [] => rev seen
  | s :: r =>
      if is_empty s || str_eqb s (u ".") then normalize seen r
      else if str_eqb s (u "..") then normalize (tl seen) r
      else normalize (s :: seen) r
  end.

Definition path_join (base : path) (segs : list jsstring) : path :=
  normalize [] (base ++ segs).

(** The text of a file: either the serialization of a JSON value (what
    [JSON.stringify] writes and [JSON.parse] reads back) or text that does not
    parse. *)
Inductive filedata : Type :=
| JsonText (v : value)
| OtherText.

(** [error.code] of the errors [fs] rejects with. *)
Inductive errcode : Type :=
| ENOENT | EACCES | EPERM | EEXIST | ENOTDIR | EISDIR | EIO.

Definition is_ENOENT (c : errcode) : bool :=
  match c with ENOENT => true | _ => false end.

(** The messages of the [Error] objects the program creates. *)
Inductive message : Type :=
| InvalidPackName (packName : jsstring)
| DatabaseFileNotFound (dbFile : path)
| FailedToCreateOutputDirectory (outputDir : path)
| FailedToDeletePackFolder (packFolderPath : path).

(** Thrown values. *)
Inductive exn : Type :=
| FsError (code : errcode)   (* rejected by fs, with a [code] property *)
| Error (m : message)        (* [new Error(...)], without [code] *)
| SyntaxError                (* thrown by [JSON.parse] *)
| TypeError.                 (* thrown by [Object.entries(null)] and by a
                                template literal on a value that cannot be
                                made a string *)

(** Lines printed on the console. *)
Inductive logentry : Type :=
| LogDeletedPackFolder (packFolderPath : path)
| LogPackFolderDoesNotExist (packFolderPath : path)
| LogExtractedFolders (n : nat) (foldersFilePath : path)
| LogNoFolderDocuments
| WarnFolderReferenceNotFound (folderKey : jsstring)
| ErrorExtractingDocument (key : jsstring) (error : exn)
| LogExtractedDocuments (extractedCount : nat)
| LogExtractionCompleted (dbFile : path)
| LogHelp                                   (* the help text *)
| ErrorUnknownCommand (command : jsstring)
| ErrorMessage (error : exn).               (* ['Error:', error.message] *)

(** The calls into [fs/promises]; [Rm] is recursive and forced, [Mkdir] is
    recursive, [WriteFile] carries the value whose serialization it
    writes. *)
Inductive fsop : Type :=
| Access (p : path)
| ReadFile (p : path)
| Mkdir (p : path)
| Rm (p : path)
| WriteFile (p : path) (data : value).

(** How the promise of a call settles; only [ReadFile] resolves with
    data. *)
Inductive reply : Type :=
| Resolved (d : option filedata)
| Rejected (code : errcode).

(** An asynchronous function body, as the tree of what it does next.
    [Await] suspends on an [fs] promise and resumes with its settlement;
    [Detach] calls an async function and drops the promise it returns, so the
    callee goes on by itself; [Hang] is a loop that never exits. *)
Inductive prog (A : Type) : Type :=
| Ret (a : A)
| Throw (e : exn)
| Hang
| Await (o : fsop) (k : reply -> prog A)
| Console (l : logentry) (k : prog A)
| Detach (t : prog unit) (k : prog A).

Arguments Ret {A} a.
Arguments Throw {A} e.
Arguments Hang {A}.
Arguments Await {A} o k.
Arguments Console {A} l k.
Arguments Detach {A} t k.

Fixpoint bind {A B : Type} (p : prog A) (f : A -> prog B) : prog B :=
  match p with
  | Ret a => f a
  | Throw e => Throw e
  | Hang => Hang
  | Await o k => Await o (fun r => bind (k r) f)
  | Console l k => Console l (bind k f)
  | Detach t k => Detach t (bind k f)
  end.

(** [try { p } catch (error) { h error }]: a detached callee is outside the
    [try]. *)
Fixpoint try_catch {A : Type} (p : prog A) (h : exn -> prog A) : prog A :=
  match p with
  | Ret a => Ret a
  | Throw e => h e
  | Hang => Hang
  | Await o k => Await o (fun r => try_catch (k r) h)
  | Console l k => Console l (try_catch k h)
  | Detach t k => Detach t (try_catch k h)
  end.

Declare Scope prog_scope.
Delimit Scope prog_scope with prog.
Notation "x <- p ;; q" := (bind p (fun x => q))
  (at level 61, p at next level, right associativity) : prog_scope.
Notation "p ;; q" := (bind p (fun _ => q))
  (at level 61, right associativity) : prog_scope.
Local Open Scope prog_scope.

(** [await fs.op(...)]: a rejection is thrown at the [await]. *)
Definition await (o : fsop) : prog (option filedata) :=
  Await o (fun r =>
    match r with
    | Resolved d => Ret d
    | Rejected code => Throw (FsError code)
    end).

Definition log (l : logentry) : prog unit := Console l (Ret tt).

(** [JSON.parse(dbContent)] *)
Definition JSON_parse (dbContent : option filedata) : prog value :=
  match dbContent with
  | Some (JsonText v) => Ret v
  | _ => Throw SyntaxError
  end.

(** [Object.entries(documents)] *)
Definition Object_entries (documents : value) : prog (list (jsstring * value)) :=
  match documents with
  | VUndefined | VNull => Throw TypeError
  | _ => Ret (own_entries documents)
  end.

(** ** class dbConvert *)

Definition AVAILABLE_PACKS : list jsstring :=
  [u "actors"; u "items"; u "macros"; u "rollTables"].

(** The fields of an instance. *)
Record dbConvert : Type := {
  packName : jsstring;
  dbFile : path;
  outputDir : path
}.

(** [validatePackName] (lines 19-23) *)
Definition validatePackName (name : jsstring) : prog unit :=
  if negb (existsb (str_eqb name) AVAILABLE_PACKS)
  then Throw (Error (InvalidPackName name))
  else Ret tt.

(** [resolveFolderPath] (lines 157-183).  The walk is the [while] loop: each
    unit of [fuel] pays for one iteration, and a loop that is still running
    when the fuel is gone is a [Hang].  The template literal on line 167
    throws a [TypeError] for an id that cannot be made a string.
    [folderPath] is kept in [unshift] order, so the outermost folder comes
    first. *)
Fixpoint walk_folders (fuel : nat) (folderDocuments : list (jsstring * value))
  (currentFolderId : value) (folderPath : list jsstring)
  : prog (list jsstring) :=
  if truthy currentFolderId then
    match fuel with
    | O => Hang
    | S fuel' =>
        match toString currentFolderId with
        | None => Throw TypeError
        | Some id =>
            let folderKey := u "!folders!" ++ id in
            let folderDoc :=
              match assoc_get folderKey folderDocuments with
              | Some d => d
              | None => VUndefined
              end in
            if negb (truthy folderDoc) then
              Console (WarnFolderReferenceNotFound folderKey) (Ret folderPath)
            else
              walk_folders fuel' folderDocuments
                (get_prop folderDoc (u "folder"))
                (sanitizeFilename (get_prop folderDoc (u "name"))
                   :: folderPath)
        end
    end
  else Ret folderPath.

(** A walk that finds more folder documents than the mapping holds has come
    back to one of them and goes round for ever, so this much fuel never
    cuts a walk that would end (see [walk_folders_hang_forever]). *)
Definition resolveFolderPath (document : value)
  (folderDocuments : list (jsstring * value)) : prog (list jsstring) :=
  if negb (truthy (get_prop document (u "folder"))) then Ret []
  else
    walk_folders (S (List.length folderDocuments)) folderDocuments
      (get_prop document (u "folder")) [].

Section Converter.

(** [process.cwd()] *)
Variable cwd : path.

(** [getPackPaths] (lines 28-32) *)
Definition getPackPaths (name : jsstring) : path * path :=
  (path_join cwd [u "packs"; name ++ u ".db"],
   path_join cwd [u "packsrc"; name]).

(** [constructor] (lines 10-14) *)
Definition new_dbConvert (name : jsstring) : prog dbConvert :=
  validatePackName name ;;
  Ret {| packName := name;
         dbFile := fst (getPackPaths name);
         outputDir := snd (getPackPaths name) |}.

(** [deletePackFolder] (lines 109-129) *)
Definition deletePackFolder (name : jsstring) : prog unit :=
  validatePackName name ;;
  let packFolderPath := path_join cwd [u "packsrc"; name] in
  try_catch
    (await (Access packFolderPath) ;;
     await (Rm packFolderPath) ;;
     log (LogDeletedPackFolder packFolderPath))
    (fun error =>
       match error with
       | FsError ENOENT => log (LogPackFolderDoesNotExist packFolderPath)
       | _ => Throw (Error (FailedToDeletePackFolder packFolderPath))
       end).

Variable this : dbConvert.

(** [ensureDirectoryStructure] (lines 97-103) *)
Definition ensureDirectoryStructure : prog unit :=
  try_catch
    (await (Mkdir (outputDir this)) ;; Ret tt)
    (fun _ => Throw (Error (FailedToCreateOutputDirectory (outputDir this)))).

(** The documents [extractFolders] collects (lines 73-80). *)
Definition collect_folder (folderDocuments : list (jsstring * value))
  (entry : jsstring * value) : list (jsstring * value) :=
  let (key, document) := entry in
  if startsWith key (u "!folders") then assoc_set key document folderDocuments
  else folderDocuments.

(** [extractFolders] (lines 72-92) *)
Definition extractFolders (documents : value)
  : prog (list (jsstring * value)) :=
  entries <- Object_entries documents ;;
  let folderDocuments := fold_left collect_folder entries [] in
  (if (0 <? List.length folderDocuments)%nat then
     let foldersFilePath := path_join (outputDir this) [u "_folders.json"] in
     await (WriteFile foldersFilePath (VObj folderDocuments)) ;;
     log (LogExtractedFolders (List.length folderDocuments) foldersFilePath)
   else log LogNoFolderDocuments) ;;
  Ret folderDocuments.

(** The body of the [try] in the write loop (lines 255-272). *)
Definition write_document (document : value)
  (folderDocuments : list (jsstring * value)) : prog unit :=
  folderPath <- resolveFolderPath document folderDocuments ;;
  let sanitizedName := sanitizeFilename (get_prop document (u "name")) in
  let filename := sanitizedName ++ u ".json" in
  let fullFolderPath := path_join (outputDir this) folderPath in
  let fullFilePath := path_join fullFolderPath [filename] in
  await (Mkdir fullFolderPath) ;;
  await (WriteFile fullFilePath document) ;;
  Ret tt.

(** The [for] loop of [extractDocuments] (lines 253-277), threading
    [extractedCount]. *)
Fixpoint write_loop (docs : list (jsstring * value))
  (folderDocuments : list (jsstring * value)) (extractedCount : nat)
  : prog nat :=
  match docs with
  | [] => Ret extractedCount
  | (key, document) :: rest =>
      count <- try_catch
                 (write_document document folderDocuments ;;
                  Ret (S extractedCount))
                 (fun error =>
                    Console (ErrorExtractingDocument key error)
                      (Ret extractedCount)) ;;
      write_loop rest folderDocuments count
  end.

(** [extractDocuments] (lines 248-280) *)
Definition extractDocuments (allDocuments : value)
  (folderDocuments : list (jsstring * value)) : prog unit :=
  entries <- Object_entries allDocuments ;;
  let top := topLevelDocuments (organizeDocuments entries) in
  extractedCount <- write_loop top folderDocuments 0%nat ;;
  log (LogExtractedDocuments extractedCount).

(** [extract] (lines 38-65).  The call of [deletePackFolder] on line 49
    has no [await]: the promise is dropped and the deletion is detached. *)
Definition extract (dbFilePath : option path) : prog unit :=
  let dbFile := match dbFilePath with Some p => p | None => dbFile this end in
  try_catch (await (Access dbFile) ;; Ret tt)
    (fun _ => Throw (Error (DatabaseFileNotFound dbFile))) ;;
  Detach (deletePackFolder (packName this))
    (dbContent <- await (ReadFile dbFile) ;;
     documents <- JSON_parse dbContent ;;
     ensureDirectoryStructure ;;
     folderDocuments <- extractFolders documents ;;
     extractDocuments documents folderDocuments ;;
     log (LogExtractionCompleted dbFile)).

End Converter.

(** ** Running programs

    [fs] is Node's, not the repository's: a run is taken against any world
    with any behaviour of the five calls, given by [handle]. *)

Inductive outcome (A : Type) : Type :=
| Returned (a : A)     (* the promise is fulfilled *)
| Raised (e : exn)     (* the promise is rejected *)
| Diverged.            (* the promise never settles *)

Arguments Returned {A} a.
Arguments Raised {A} e.
Arguments Diverged {A}.

Definition is_terminal {A : Type} (p : prog A) : bool :=
  match p with
  | Ret _ | Throw _ | Hang => true
  | _ => false
  end.

Definition outcome_of {A : Type} (p : prog A) : option (outcome A) :=
  match p with
  | Ret a => Some (Returned a)
  | Throw e => Some (Raised e)
  | Hang => Some Diverged
  | _ => None
  end.

Section Semantics.

Variable world : Type.
Variable handle : fsop -> world -> reply * world.

(** What a task did when run by itself from a world: how it ended, the
    world it left, the lines it printed, the [fs] calls it made with their
    settlements, and the callees it detached (not run here). *)
Record run (A : Type) : Type := {
  ended : outcome A;
  final : world;
  printed : list logentry;
  calls : list (fsop * reply);
  detached : list (prog unit)
}.

Arguments ended {A} r.
Arguments final {A} r.
Arguments printed {A} r.
Arguments calls {A} r.
Arguments detached {A} r.

Fixpoint eval {A : Type} (p : prog A) (w : world) : run A :=
  match p with
  | Ret a =>
      {| ended := Returned a; final := w; printed := []; calls := [];
         detached := [] |}
  | Throw e =>
      {| ended := Raised e; final := w; printed := []; calls := [];
         detached := [] |}
  | Hang =>
      {| ended := Diverged; final := w; printed := []; calls := [];
         detached := [] |}
  | Await o k =>
      let (r, w') := handle o w in
      let rest := eval (k r) w' in
      {| ended := ended rest; final := final rest; printed := printed rest;
         calls := (o, r) :: calls rest; detached := detached rest |}
  | Console l k =>
      let rest := eval k w in
      {| ended := ended rest; final := final rest;
         printed := l :: printed rest; calls := calls rest;
         detached := detached rest |}
  | Detach t k =>
      let rest := eval k w in
      {| ended := ended rest; final := final rest; printed := printed rest;
         calls := calls rest; detached := t :: detached rest |}
  end.

(** *** Interleaved runs

    The caller and the callees it detached go on side by side: a schedule
    says whose next step happens.  A step is one [fs] call settling, one
    console line, or one detaching call.  [history] keeps the [fs] calls
    in the order in which they took effect. *)

Record config (A : Type) : Type := {
  main : prog A;
  tasks : list (prog unit);
  disk : world;
  output : list logentry;
  history : list (fsop * reply)
}.

Arguments main {A} c.
Arguments tasks {A} c.
Arguments disk {A} c.
Arguments output {A} c.
Arguments history {A} c.

Inductive pick : Type :=
| Main
| Task (i : nat).

(** What one step of one task brings about. *)
Record effect (A : Type) : Type := {
  next : prog A;
  world_after : world;
  line : list logentry;
  call : list (fsop * reply);
  spawned : list (prog unit)
}.

Arguments next {A} e.
Arguments world_after {A} e.
Arguments line {A} e.
Arguments call {A} e.
Arguments spawned {A} e.

Definition step {A : Type} (p : prog A) (w : world) : effect A :=
  match p with
  | Await o k =>
      let (r, w') := handle o w in
      {| next := k r; world_after := w'; line := []; call := [(o, r)];
         spawned := [] |}
  | Console l k =>
      {| next := k; world_after := w; line := [l]; call := [];
         spawned := [] |}
  | Detach t k =>
      {| next := k; world_after := w; line := []; call := [];
         spawned := [t] |}
  | _ =>
      {| next := p; world_after := w; line := []; call := [];
         spawned := [] |}
  end.

Fixpoint replace_nth {T : Type} (i : nat) (x : T) (l : list T) : list T :=
  match l, i with
  | [], _ => []
  | _ :: r, O => x :: r
  | y :: r, S i' => y :: replace_nth i' x r
  end.

Definition tick {A : Type} (c : config A) (who : pick) : config A :=
  match who with
  | Main =>
      let e := step (main c) (disk c) in
      {| main := next e; tasks := tasks c ++ spawned e;
         disk := world_after e; output := output c ++ line e;
         history := history c ++ call e |}
  | Task i =>
      match nth_error (tasks c) i with
      | Some t =>
          let e := step t (disk c) in
          {| main := main c;
             tasks := replace_nth i (next e) (tasks c) ++ spawned e;
             disk := world_after e; output := output c ++ line e;
             history := history c ++ call e |}
      | None => c
      end
  end.

Definition run_schedule {A : Type} (schedule : list pick) (c : config A)
  : config A :=
  fold_left tick schedule c.

Definition start {A : Type} (p : prog A) (w : world) : config A :=
  {| main := p; tasks := []; disk := w; output := []; history := [] |}.

(** Every task has come to its end. *)
Definition settled {A : Type} (c : config A) : bool :=
  is_terminal (main c) && forallb is_terminal (tasks c).

(** The rejections of detached callees: nobody holds their promise, so no
    caller receives them. *)
Definition unhandled_rejections {A : Type} (c : config A) : list exn :=
  flat_map (fun t => match t with Throw e => [e] | _ => [] end) (tasks c).

End Semantics.

Arguments ended {world A} r.
Arguments final {world A} r.
Arguments printed {world A} r.
Arguments calls {world A} r.
Arguments detached {world A} r.
Arguments main {world A} c.
Arguments tasks {world A} c.
Arguments disk {world A} c.
Arguments output {world A} c.
Arguments history {world A} c.
Arguments eval {world} handle {A} p w.
Arguments step {world} handle {A} p w.
Arguments tick {world} handle {A} c who.
Arguments run_schedule {world} handle {A} schedule c.
Arguments start {world A} p w.
Arguments settled {world A} c.
Arguments unhandled_rejections {world A} c.

(** ** A file system to run on

    A small in-memory file system with the behaviour of the five [fs] calls
    that the program relies on, and a table of injected failures.  It serves
    to run the program on concrete inputs. *)

Inductive node : Type :=
| File (d : filedata)
| Dir.

Inductive opkind : Type := KAccess | KReadFile | KMkdir | KRm | KWriteFile.

Definition opkind_eqb (a b : opkind) : bool :=
  match a, b with
  | KAccess, KAccess | KReadFile, KReadFile | KMkdir, KMkdir
  | KRm, KRm | KWriteFile, KWriteFile => true
  | _, _ => false
  end.

Definition kind_of (o : fsop) : opkind * path :=
  match o with
  | Access p => (KAccess, p)
  | ReadFile p => (KReadFile, p)
  | Mkdir p => (KMkdir, p)
  | Rm p => (KRm, p)
  | WriteFile p _ => (KWriteFile, p)
  end.

Fixpoint path_eqb (a b : path) : bool :=
  match a, b with
  | [], [] => true
  | x :: a', y :: b' => str_eqb x y && path_eqb a' b'
  | _, _ => false
  end.

(** [is_under p q]: [q] is [p] or lies below it. *)
Fixpoint is_under (p q : path) : bool :=
  match p, q with
  | [], _ => true
  | x :: p', y :: q' => str_eqb x y && is_under p' q'
  | _ :: _, [] => false
  end.

Record memfs : Type := {
  nodes : list (path * node);
  faults : list (opkind * path * errcode)
}.

Fixpoint find_node (p : path) (l : list (path * node)) : option node :=
  match l with
  | [] => None
  | (q, n) :: r => if path_eqb p q then Some n else find_node p r
  end.

Fixpoint find_fault (k : opkind) (p : path)
  (l : list (opkind * path * errcode)) : option errcode :=
  match l with
  | [] => None
  | (k', q, c) :: r =>
      if opkind_eqb k k' && path_eqb p q then Some c else find_fault k p r
  end.

(** The root is always a directory. *)
Definition lookup_node (p : path) (m : memfs) : option node :=
  match p with
  | [] => Some Dir
  | _ => find_node p (nodes m)
  end.

Definition put_node (p : path) (n : node) (l : list (path * node))
  : list (path * node) :=
  (p, n) :: filter (fun e => negb (path_eqb p (fst e))) l.

(** [mkdir -p]: going down from [done], creates what is missing and fails on
    a file in the way. *)
Fixpoint mkdir_p (done : path) (todo : list jsstring) (l : list (path * node))
  : errcode + list (path * node) :=
  match todo with
  | [] => inr l
  | s :: todo' =>
      let here := done ++ [s] in
      match find_node here l with
      | Some Dir => mkdir_p here todo' l
      | Some (File _) =>
          inl (if is_empty todo' then EEXIST else ENOTDIR)
      | None => mkdir_p here todo' (put_node here Dir l)
      end
  end.

Definition with_nodes (m : memfs) (l : list (path * node)) : memfs :=
  {| nodes := l; faults := faults m |}.

Definition mem_handle (o : fsop) (m : memfs) : reply * memfs :=
  match find_fault (fst (kind_of o)) (snd (kind_of o)) (faults m) with
  | Some c => (Rejected c, m)
  | None =>
      match o with
      | Access p =>
          match lookup_node p m with
          | Some _ => (Resolved None, m)
          | None => (Rejected ENOENT, m)
          end
      | ReadFile p =>
          match lookup_node p m with
          | Some (File d) => (Resolved (Some d), m)
          | Some Dir => (Rejected EISDIR, m)
          | None => (Rejected ENOENT, m)
          end
      | Mkdir p =>
          match mkdir_p [] p (nodes m) with
          | inr l => (Resolved None, with_nodes m l)
          | inl c => (Rejected c, m)
          end
      | Rm p =>
          (Resolved None,
           with_nodes m (filter (fun e => negb (is_under p (fst e))) (nodes m)))
      | WriteFile p data =>
          match lookup_node (removelast p) m, lookup_node p m with
          | Some Dir, Some Dir => (Rejected EISDIR, m)
          | Some Dir, _ =>
              (Resolved None,
               with_nodes m (put_node p (File (JsonText data)) (nodes m)))
          | Some (File _), _ => (Rejected ENOTDIR, m)
          | None, _ => (Rejected ENOENT, m)
          end
      end
  end.

(** What lies strictly below a directory. *)
Definition contents (dir : path) (m : memfs) : list (path * node) :=
  filter (fun e => is_under dir (fst e) && negb (path_eqb dir (fst e)))
    (nodes m).

(** ** Predicates and functions of the statements *)

Definition starts_in (cls : N -> bool) (s : jsstring) : bool :=
  match s with c :: _ => cls c | [] => false end.

Fixpoint ends_in (cls : N -> bool) (s : jsstring) : bool :=
  match s with
  | [] => false
  | c :: r => if is_empty r then cls c else ends_in cls r
  end.

(** No two underscores side by side. *)
Fixpoint no_double (s : jsstring) : bool :=
  match s with
  | [] => true
  | c :: r => negb (is_underscore c && starts_in is_underscore r) && no_double r
  end.

Definition valid_char (c : N) : bool := negb (is_invalid c).

(** A name that needs no sanitizing. *)
Definition safe_name (s : jsstring) : bool :=
  forallb valid_char s && no_double s
  && negb (starts_in is_underscore s) && negb (ends_in is_underscore s).

(** The four replacements, before the fallback. *)
Definition sanitize_core (s : jsstring) : jsstring :=
  trim (strip_underscores
          (replace_runs is_underscore false (replace_runs is_invalid false s))).

(** The shape [!<type section>!<id section>] with both sections non-empty;
    the type section is the text between the first two [!]. *)
Definition key_shape (key : jsstring) : Prop :=
  exists typeSection idSection,
    key = BANG :: typeSection ++ BANG :: idSection
    /\ typeSection <> [] /\ idSection <> [] /\ ~ In BANG typeSection.

(** The shape, decided. *)
Definition has_shape (key : jsstring) : bool :=
  match key with
  | c :: s =>
      (c =? BANG)
      && negb (is_empty (fst (span_type s)))
      && match snd (span_type s) with
         | _ :: _ :: _ => true
         | _ => false
         end
  | [] => false
  end.

(** The id section cut at its first [.]: what stands before it and, when
    there is a [.], what stands after it. *)
Fixpoint split_first (sep : N) (s : jsstring) : jsstring * option jsstring :=
  match s with
  | [] => ([], None)
  | c :: r =>
      if c =? sep then ([], Some r)
      else let (a, b) := split_first sep r in (c :: a, b)
  end.

(** One of the two halves of the id section is absent or empty. *)
Definition lacks_half (idSection : jsstring) : bool :=
  is_empty (fst (split_first DOT idSection))
  || match snd (split_first DOT idSection) with
     | None => true
     | Some childHalf => is_empty childHalf
     end.

(** The parent key under which the partition step files a record as
    embedded, when it does. *)
Definition embedded_parent (key : jsstring) : option jsstring :=
  if startsWith key (u "!folders!") then None
  else
    match match_key key with
    | Some (typeSection, idSection) =>
        if includes DOT typeSection
           && truthy (part 0 (split DOT idSection))
           && truthy (part 1 (split DOT idSection))
        then parentKeyOf (part 0 (split DOT typeSection))
               (part 0 (split DOT idSection))
        else None
    | None => None
    end.

(** The keys the partition step takes as top-level documents. *)
Definition is_top_level (key : jsstring) : bool :=
  negb (startsWith key (u "!folders!"))
  && match match_key key with
     | Some (typeSection, _) => negb (includes DOT typeSection)
     | None => false
     end.

Definition is_embedded (key : jsstring) : bool :=
  match embedded_parent key with Some _ => true | None => false end.

Definition has_key {V : Type} (k : jsstring) (o : list (jsstring * V)) : bool :=
  existsb (fun e => str_eqb k (fst e)) o.

Fixpoint unique_keys {V : Type} (o : list (jsstring * V)) : bool :=
  match o with
  | [] => true
  | (k, _) :: r => negb (has_key k r) && unique_keys r
  end.

(** What the first loop does to each of the two mappings. *)
Definition top_step (top : list (jsstring * value))
  (entry : jsstring * value) : list (jsstring * value) :=
  if is_top_level (fst entry)
  then assoc_set (fst entry) (spread (snd entry)) top
  else top.

(** [`!folders!${id}`], when the id can be made a string. *)
Definition folderKeyOf (id : value) : option jsstring :=
  match toString id with
  | Some s => Some (u "!folders!" ++ s)
  | None => None
  end.

(** [folderDocuments[folderKey]] *)
Definition folder_at (folderDocuments : list (jsstring * value))
  (folderKey : jsstring) : value :=
  match assoc_get folderKey folderDocuments with
  | Some d => d
  | None => VUndefined
  end.

(** [folderDocuments[`!folders!${id}`]], the lookup of line 168, when the
    key can be built. *)
Definition folder_lookup (folderDocuments : list (jsstring * value))
  (id : value) : option value :=
  match folderKeyOf id with
  | Some folderKey => Some (folder_at folderDocuments folderKey)
  | None => None
  end.

(** The folder document stored for the id, when there is one. *)
Definition folder_found (folderDocuments : list (jsstring * value))
  (id : value) : option value :=
  match folderKeyOf id with
  | Some folderKey => assoc_get folderKey folderDocuments
  | None => None
  end.

Definition sanitized_name (folderDoc : value) : jsstring :=
  sanitizeFilename (get_prop folderDoc (u "name")).

(** [chain folderDocuments id hops last]: starting at the folder id [id], the
    folder documents [hops] are found one after the other, each by the
    [folder] reference of the one before, and the reference of the last one
    is [last]. *)
Fixpoint chain (folderDocuments : list (jsstring * value)) (id : value)
  (hops : list value) (last : value) : Prop :=
  match hops with
  | [] => id = last
  | d :: rest =>
      truthy id = true
      /\ folder_found folderDocuments id = Some d
      /\ truthy d = true
      /\ chain folderDocuments (get_prop d (u "folder")) rest last
  end.

(** The walk stops at [last]: it is falsy (the root is reached), or its key
    leads to no folder document. *)
Definition stops (folderDocuments : list (jsstring * value)) (last : value)
  : bool :=
  negb (truthy last)
  || match folderKeyOf last with
     | Some folderKey => negb (truthy (folder_at folderDocuments folderKey))
     | None => false
     end.

(** The walk throws at [last]: it is a reference that cannot be made a
    string. *)
Definition throws (last : value) : bool :=
  truthy last
  && match folderKeyOf last with Some _ => false | None => true end.

(** The walk goes no further than [last]. *)
Definition ends_at (folderDocuments : list (jsstring * value)) (last : value)
  : bool :=
  stops folderDocuments last || throws last.

(** How the walk ends at [last] with the path walked: silently at the root,
    with a warning at a reference that was not found, with a [TypeError] at
    a reference that cannot be made a string. *)
Definition walk_end {A : Type} (last : value) (k : prog A) : prog A :=
  if truthy last then
    match folderKeyOf last with
    | Some folderKey => Console (WarnFolderReferenceNotFound folderKey) k
    | None => Throw TypeError
    end
  else k.

Fixpoint chain_keys (id : value) (hops : list value)
  : list (option jsstring) :=
  match hops with
  | [] => []
  | d :: rest => folderKeyOf id :: chain_keys (get_prop d (u "folder")) rest
  end.

(** A program that only prints and returns: its lines and its result. *)
Fixpoint pure_run {A : Type} (p : prog A) : option (list logentry * A) :=
  match p with
  | Ret a => Some ([], a)
  | Console l k =>
      match pure_run k with
      | Some (ls, a) => Some (l :: ls, a)
      | None => None
      end
  | _ => None
  end.

(** The folder walk of a document comes to an end: it returns or it
    throws. *)
Definition walk_ends (folderDocuments : list (jsstring * value))
  (entry : jsstring * value) : bool :=
  match resolveFolderPath (snd entry) folderDocuments with
  | Hang => false
  | _ => true
  end.

Definition written (call : fsop * reply) : bool :=
  match call with
  | (WriteFile _ _, Resolved _) => true
  | _ => false
  end.

(** The number of [writeFile] calls that succeeded. *)
Definition successes (l : list (fsop * reply)) : nat :=
  List.length (filter written l).

Definition nullish (v : value) : bool :=
  match v with VUndefined | VNull => true | _ => false end.

(** What one iteration of the loop does for a document: the [fs] calls it
    makes with their settlements, the lines it prints, and whether the
    document counts as extracted.  The iteration ends at the first thing
    that fails: resolving the folder path, the [mkdir], the [writeFile]. *)
Inductive attempt (this : dbConvert) (folderDocuments : list (jsstring * value))
  : jsstring * value -> list (fsop * reply) -> list logentry -> bool -> Prop :=
| attempt_not_resolved key document error :
    resolveFolderPath document folderDocuments = Throw error ->
    attempt this folderDocuments (key, document) []
      [ErrorExtractingDocument key error] false
| attempt_mkdir_rejected key document warnings folderPath code :
    pure_run (resolveFolderPath document folderDocuments)
    = Some (warnings, folderPath) ->
    attempt this folderDocuments (key, document)
      [(Mkdir (path_join (outputDir this) folderPath), Rejected code)]
      (warnings ++ [ErrorExtractingDocument key (FsError code)]) false
| attempt_write_rejected key document warnings folderPath d code :
    pure_run (resolveFolderPath document folderDocuments)
    = Some (warnings, folderPath) ->
    attempt this folderDocuments (key, document)
      [(Mkdir (path_join (outputDir this) folderPath), Resolved d);
       (WriteFile
          (path_join (path_join (outputDir this) folderPath)
             [sanitizeFilename (get_prop document (u "name")) ++ u ".json"])
          document, Rejected code)]
      (warnings ++ [ErrorExtractingDocument key (FsError code)]) false
| attempt_written key document warnings folderPath d d' :
    pure_run (resolveFolderPath document folderDocuments)
    = Some (warnings, folderPath) ->
    attempt this folderDocuments (key, document)
      [(Mkdir (path_join (outputDir this) folderPath), Resolved d);
       (WriteFile
          (path_join (path_join (outputDir this) folderPath)
             [sanitizeFilename (get_prop document (u "name")) ++ u ".json"])
          document, Resolved d')]
      warnings true.

(** Every document gets its attempt, in order, whatever became of the
    others; [count] is the number of attempts that succeeded. *)
Inductive attempts (this : dbConvert)
  (folderDocuments : list (jsstring * value))
  : list (jsstring * value) -> list (fsop * reply) -> list logentry -> nat
    -> Prop :=
| attempts_nil : attempts this folderDocuments [] [] [] 0%nat
| attempts_cons entry rest c l ok cs ls count :
    attempt this folderDocuments entry c l ok ->
    attempts this folderDocuments rest cs ls count ->
    attempts this folderDocuments (entry :: rest) (c ++ cs) (l ++ ls)
      ((if ok then 1 else 0) + count)%nat.

Fixpoint emit {A : Type} (ls : list logentry) (k : prog A) : prog A :=
  match ls with
  | [] => k
  | l :: r => Console l (emit r k)
  end.

(** ** Examples on the in-memory file system *)

Definition example_cwd : path := [u "work"].

Definition example_converter : dbConvert :=
  {| packName := u "actors";
     dbFile := fst (getPackPaths example_cwd (u "actors"));
     outputDir := snd (getPackPaths example_cwd (u "actors")) |}.

(** A disk with the database file holding [db], and an output directory left
    by an earlier run with one file in it. *)
Definition example_tree (db : value) : list (path * node) :=
  [([u "work"], Dir);
   ([u "work"; u "packs"], Dir);
   ([u "work"; u "packs"; u "actors.db"], File (JsonText db));
   ([u "work"; u "packsrc"], Dir);
   ([u "work"; u "packsrc"; u "actors"], Dir);
   ([u "work"; u "packsrc"; u "actors"; u "Old.json"], File OtherText)].

Definition example_store : value :=
  VObj [(u "!actors!a1", VObj [(u "name", VStr (u "Goblin"))])].

Definition example_disk : memfs :=
  {| nodes := example_tree example_store; faults := [] |}.

(** The same disk, on which removing the output directory fails. *)
Definition example_undeletable_disk : memfs :=
  {| nodes := example_tree example_store;
     faults := [(KRm, outputDir example_converter, EPERM)] |}.

Definition example_two_documents : value :=
  VObj [(u "!actors!a1", VObj [(u "name", VStr (u "Goblin"))]);
        (u "!actors!a2", VObj [(u "name", VStr (u "Orc"))])].

(** A disk on which writing [Goblin.json] fails. *)
Definition example_failing_disk : memfs :=
  {| nodes := example_tree example_two_documents;
     faults := [(KWriteFile,
                 outputDir example_converter ++ [u "Goblin.json"], EIO)] |}.

(** A store whose only key starts with [!folders] but not with
    [!folders!]. *)
Definition example_stray_store : value :=
  VObj [(u "!foldersX!a1", VObj [(u "name", VStr (u "Stray"))])].

Definition example_stray_disk : memfs :=
  {| nodes := example_tree example_stray_store; faults := [] |}.

(** A document whose folder reference is an object with an own property
    [toString], which no template literal can print. *)
Definition example_odd_document : value :=
  VObj [(u "name", VStr (u "Goblin"));
        (u "folder", VObj [(u "toString", VNum 1)])].


Definition example_odd_pair : value :=
  VObj [(u "!actors!a1", example_odd_document);
        (u "!actors!a2", VObj [(u "name", VStr (u "Orc"))])].


(** Stores of one record whose key starts with [!folders] but not with
    [!folders!]: an embedded record without its parent, a record whose id
    section has no child half, and a key without the second [!]. *)
Definition example_orphan_store : value :=
  VObj [(u "!foldersX.item!P1.C1", VObj [(u "name", VStr (u "Sword"))])].

Definition example_halved_store : value :=
  VObj [(u "!folders.item!P1", VObj [(u "name", VStr (u "Lost"))])].

Definition example_shapeless_store : value :=
  VObj [(u "!foldersX", VObj [(u "name", VStr (u "Odd"))])].

Definition example_disk_of (db : value) : memfs :=
  {| nodes := example_tree db; faults := [] |}.

(** The deletion takes effect before the caller reads the database. *)
Definition deletion_first : list pick :=
  [Main; Main; Task 0; Task 0; Task 0] ++ repeat Main 10.

(** The deletion takes effect after the caller has written its files. *)
Definition deletion_last : list pick :=
  repeat Main 12 ++ [Task 0; Task 0; Task 0].

Definition example_run (schedule : list pick) (m : memfs)
  : config memfs unit :=
  run_schedule mem_handle schedule
    (start (extract example_cwd example_converter None) m).

Definition kinds (l : list (fsop * reply)) : list opkind :=
  map (fun c => fst (kind_of (fst c))) l.

(** A folder, a document in it, and an item embedded in the document. *)
Definition example_nested_store : value :=
  VObj [(u "!folders!F1",
         VObj [(u "name", VStr (u "Monsters")); (u "folder", VNull)]);
        (u "!actors!P1",
         VObj [(u "name", VStr (u "Goblin")); (u "folder", VStr (u "F1"))]);
        (u "!actors.items!P1.C1", VObj [(u "name", VStr (u "Club"))])].

Definition example_nested_disk : memfs :=
  {| nodes := example_tree example_nested_store; faults := [] |}.

(** ** Further predicates and functions of the statements *)

(** The embedded record at [key] is filed under [parentKey]. *)
Definition filed_under (parentKey key : jsstring) : bool :=
  match embedded_parent key with
  | Some p => str_eqb p parentKey
  | None => false
  end.

(** The bodies of the embedded records of a parent, in store order. *)
Definition children_of (parentKey : jsstring) (docs : list (jsstring * value))
  : list value :=
  map snd (filter (fun e => filed_under parentKey (fst e)) docs).

(** A parent with its embedded documents, as the second loop leaves it. *)
Definition with_embedded (parent : value) (children : list value) : value :=
  match children with
  | [] => parent
  | _ => set_prop parent (u "embedded") (VArr children)
  end.

(** A path segment that [path.join] keeps as it is: not empty, not [.] and
    not [..]. *)
Definition plain_segment (s : jsstring) : bool :=
  negb (is_empty s) && negb (str_eqb s (u ".")) && negb (str_eqb s (u "..")).

(** The records [extractFolders] collects, by its own test. *)
Definition collected (entry : jsstring * value) : bool :=
  startsWith (fst entry) (u "!folders").

(** Every [fs] call a program can make, in its own body or in a callee it
    detaches, satisfies [P]. *)
Fixpoint only_ops (P : fsop -> Prop) (A : Type) (p : prog A) {struct p}
  : Prop :=
  match p with
  | Ret _ | Throw _ | Hang => True
  | Await o k => P o /\ forall r, only_ops P A (k r)
  | Console _ k => only_ops P A k
  | Detach t k => only_ops P unit t /\ only_ops P A k
  end.

Arguments only_ops P {A} p.

(** The calls [extract] may make for a database file and a pack folder: it
    probes both, reads the first, removes the second, and creates
    directories and files. *)
Definition extract_op (dbFile packFolder : path) (o : fsop) : Prop :=
  match o with
  | Access p => p = dbFile \/ p = packFolder
  | ReadFile p => p = dbFile
  | Rm p => p = packFolder
  | Mkdir _ | WriteFile _ _ => True
  end.

(** [dbFilePath || this.paths.dbFile] *)
Definition database_of (this : dbConvert) (dbFilePath : option path) : path :=
  match dbFilePath with Some p => p | None => dbFile this end.

(** A disk without the database file. *)
Definition example_empty_disk : memfs :=
  {| nodes := [([u "work"], Dir)]; faults := [] |}.

(** A disk whose database file is not JSON. *)
Definition example_corrupt_disk : memfs :=
  {| nodes := [([u "work"], Dir);
               ([u "work"; u "packs"], Dir);
               ([u "work"; u "packs"; u "actors.db"], File OtherText);
               ([u "work"; u "packsrc"], Dir);
               ([u "work"; u "packsrc"; u "actors"], Dir);
               ([u "work"; u "packsrc"; u "actors"; u "Old.json"],
                File OtherText)];
     faults := [] |}.

(** A disk on which the output directory cannot be created. *)
Definition example_readonly_disk : memfs :=
  {| nodes := example_tree example_store;
     faults := [(KMkdir, outputDir example_converter, EACCES)] |}.

Arguments next {world A} e.
Arguments world_after {world A} e.
Arguments line {world A} e.
Arguments call {world A} e.
Arguments spawned {world A} e.

(** A configuration in which every call made so far, and every call that can
    still be made, satisfies [P]. *)
Definition confined {world A : Type} (P : fsop -> Prop) (c : config world A)
  : Prop :=
  only_ops P (main c)
  /\ Forall (fun t => only_ops P t) (tasks c)
  /\ Forall (fun call => P (fst call)) (history c).

(** ** class dbConvertCLI (dbConvert.mjs, lines 286-381) *)

(** [options[key] = v] on the object made by the literal [{}], for a string
    or boolean [v]: the assignment to [__proto__] of a value that is not an
    object does nothing.  The options are only read by name, so the order of
    the properties is of no account. *)
Definition set_option (key : jsstring) (v : value)
  (options : list (jsstring * value)) : list (jsstring * value) :=
  if str_eqb key (u "__proto__") then options else assoc_set key v options.

(** The loop of [parseArgs] (lines 299-311), from the argument at index
    [i]. *)
Fixpoint parse_from (args : list jsstring) (options : list (jsstring * value))
  : list (jsstring * value) :=
  match args with
  | [] => options
  | arg :: rest =>
      if startsWith arg (u "--") then
        let key := skipn 2 arg in
        match rest with
        | value :: rest' =>
            if negb (is_empty value) && negb (startsWith value (u "--"))
            then parse_from rest' (set_option key (VStr value) options)
            else parse_from rest (set_option key (VBool true) options)
        | [] => set_option key (VBool true) options
        end
      else parse_from rest options
  end.

(** [parseArgs] (lines 296-314): the loop starts after the command. *)
Definition parseArgs (args : list jsstring) : list (jsstring * value) :=
  parse_from (tl args) [].

(** An instance, as the constructor builds it from [process.argv]
    (lines 287-291). *)
Record dbConvertCLI : Type := {
  cli_args : list jsstring;
  cli_command : value;
  cli_options : list (jsstring * value)
}.

Definition new_dbConvertCLI (argv : list jsstring) : dbConvertCLI :=
  {| cli_args := skipn 2 argv;
     cli_command := part 0 (skipn 2 argv);
     cli_options := parseArgs (skipn 2 argv) |}.

(** The case of the [switch] that [run] takes (lines 346-359). *)
Inductive cli_result : Type :=
| ShowedHelp                            (* [showHelp()] and nothing else *)
| UnknownCommand (command : jsstring)   (* an error line, the help and
                                           [process.exit(1)] *)
| Ran (p : prog unit).                  (* [await this.handleExtract()] *)

(** How [run] leaves the process: it returns, and the process lives on
    until its pending work is done, or it has called [process.exit], after
    which nothing runs any more. *)
Inductive run_end : Type :=
| RunReturns
| ProcessExit (code : N).

(** [showHelp] (lines 319-339): one [console.log] of the help text. *)
Definition showHelp : prog unit := log LogHelp.

Section CLI.

(** [process.cwd()] *)
Variable cwd : path.

(** The file that a path string given on the command line names for
    [fs]. *)
Variable locate : jsstring -> path.

(** [new dbConvert(packName)] for a [packName] that need not be a string:
    [AVAILABLE_PACKS.includes] is false for anything else. *)
Definition new_dbConvert_of (packName : value) : prog dbConvert :=
  match packName with
  | VStr name => new_dbConvert cwd name
  | _ =>
      match toString packName with
      | Some name => Throw (Error (InvalidPackName name))
      | None => Throw TypeError
      end
  end.

(** [converter.extract(customFile)] for a truthy [customFile]: [fs.access]
    rejects a path that is not a string, which line 45 turns into the error
    "Database file not found". *)
Definition extract_custom (converter : dbConvert) (customFile : value)
  : prog unit :=
  match customFile with
  | VStr file => extract cwd converter (Some (locate file))
  | _ =>
      match toString customFile with
      | Some file => Throw (Error (DatabaseFileNotFound (locate file)))
      | None => Throw TypeError
      end
  end.

(** [handleExtract] (lines 369-380) *)
Definition handleExtract (options : list (jsstring * value)) : prog unit :=
  let packName :=
    if truthy (get_prop (VObj options) (u "pack"))
    then get_prop (VObj options) (u "pack")
    else VStr (u "actors") in
  let customFile := get_prop (VObj options) (u "file") in
  converter <- new_dbConvert_of packName ;;
  if truthy customFile then extract_custom converter customFile
  else extract cwd converter None.

(** The [switch] of [run] (lines 346-359); the name [run] is taken by the
    record of a run. *)
Definition cli_run (cli : dbConvertCLI) : cli_result :=
  match cli_command cli with
  | VStr command =>
      if str_eqb command (u "extract") then Ran (handleExtract (cli_options cli))
      else if str_eqb command (u "help") || str_eqb command (u "--help")
           then ShowedHelp
           else UnknownCommand command
  | _ => ShowedHelp
  end.

(** [run] (lines 344-364): the case taken, inside the [try] whose handler
    prints the error and exits with code 1.  [process.exit] does not return,
    so [ProcessExit] is the last thing the program does. *)
Definition dbConvertCLI_run (cli : dbConvertCLI) : prog run_end :=
  try_catch
    (match cli_run cli with
     | Ran handled => handled ;; Ret RunReturns
     | ShowedHelp => showHelp ;; Ret RunReturns
     | UnknownCommand command =>
         log (ErrorUnknownCommand command) ;;
         showHelp ;;
         Ret (ProcessExit 1)
     end)
    (fun error => log (ErrorMessage error) ;; Ret (ProcessExit 1)).

(** The last lines of the module (387-390): the command line is processed
    only when there is an argument; the promise of [cli.run()] is dropped. *)
Definition run_module (argv : list jsstring) : option (prog run_end) :=
  if (2 <? List.length argv)%nat
  then Some (dbConvertCLI_run (new_dbConvertCLI argv))
  else None.

End CLI.

(** An option value as [parseArgs] can store it: [true], or a non-empty
    string that does not start with [--]. *)
Definition option_value (v : value) : bool :=
  match v with
  | VBool true => true
  | VStr s => negb (is_empty s) && negb (startsWith s (u "--"))
  | _ => false
  end.

(** The argument right after a flag is not taken as its value. *)
Definition no_value_next (after : list jsstring) : bool :=
  match after with
  | [] => true
  | a :: _ => is_empty a || startsWith a (u "--")
  end.

(** A command-line path taken relative to the working directory. *)
Definition example_locate (file : jsstring) : path :=
  path_join example_cwd (split 47 file).

(* ===================================================================== *)
(** * Part II.  Properties                                                *)
(* ===================================================================== *)

(** ** Strings *)

Lemma str_eqb_eq (a b : jsstring) : str_eqb a b = true <-> a = b.
Proof.
  revert b; induction a as [|x a IH]; intros [|y b]; simpl;
    try (split; [discriminate | congruence]); try tauto.
  rewrite andb_true_iff, N.eqb_eq, IH. split.
  - intros [-> ->]; reflexivity.
  - intros E; injection E; auto.
Qed.

Lemma str_eqb_refl (a : jsstring) : str_eqb a a = true.
Proof. apply str_eqb_eq; reflexivity. Qed.

Lemma str_eqb_neq (a b : jsstring) : str_eqb a b = false <-> a <> b.
Proof.
  rewrite <- str_eqb_eq. destruct (str_eqb a b); split; congruence.
Qed.

Lemma str_eqb_sym (a b : jsstring) : str_eqb a b = str_eqb b a.
Proof.
  destruct (str_eqb a b) eqn:E.
  - apply str_eqb_eq in E; subst; symmetry; apply str_eqb_refl.
  - symmetry; apply str_eqb_neq; apply str_eqb_neq in E; congruence.
Qed.

Lemma startsWith_app (p s : jsstring) : startsWith (p ++ s) p = true.
Proof. induction p; simpl; [reflexivity | now rewrite N.eqb_refl]. Qed.

Lemma startsWith_inv (s p : jsstring) :
  startsWith s p = true -> exists r, s = p ++ r.
Proof.
  revert s; induction p as [|c p IH]; intros s; simpl.
  - exists s; reflexivity.
  - destruct s as [|d s]; [discriminate|].
    rewrite andb_true_iff, N.eqb_eq; intros [-> H].
    destruct (IH _ H) as [r ->]; exists r; reflexivity.
Qed.

(** ** sanitizeFilename *)

Lemma is_space_invalid c : is_space c = true -> is_invalid c = true.
Proof. unfold is_invalid; intros ->; rewrite !orb_true_r; reflexivity. Qed.

Lemma is_underscore_eq c : is_underscore c = true -> c = UNDERSCORE.
Proof. apply N.eqb_eq. Qed.

Lemma underscore_valid c : is_underscore c = true -> valid_char c = true.
Proof. intros H; apply is_underscore_eq in H; subst; reflexivity. Qed.

Lemma replace_runs_fixed cls b s :
  forallb (fun c => negb (cls c)) s = true -> replace_runs cls b s = s.
Proof.
  revert b; induction s as [|c s IH]; intros b; simpl; [reflexivity|].
  rewrite andb_true_iff; intros [Hc Hs].
  destruct (cls c); [discriminate|]. now rewrite IH.
Qed.

Lemma replace_runs_invalid_valid b s :
  forallb valid_char (replace_runs is_invalid b s) = true.
Proof.
  revert b; induction s as [|c s IH]; intros b; simpl; [reflexivity|].
  destruct (is_invalid c) eqn:E.
  - destruct b; simpl; auto.
  - simpl. unfold valid_char at 1. rewrite E; simpl; auto.
Qed.

Lemma replace_runs_underscore_valid b s :
  forallb valid_char s = true ->
  forallb valid_char (replace_runs is_underscore b s) = true.
Proof.
  revert b; induction s as [|c s IH]; intros b; simpl; [reflexivity|].
  rewrite andb_true_iff; intros [Hc Hs].
  destruct (is_underscore c); [destruct b|]; simpl; auto.
  rewrite Hc; simpl; auto.
Qed.

Lemma replace_runs_no_double b s :
  no_double (replace_runs is_underscore b s) = true
  /\ (b = true ->
      starts_in is_underscore (replace_runs is_underscore b s) = false).
Proof.
  revert b; induction s as [|c s IH]; intros b; simpl; [auto|].
  destruct (is_underscore c) eqn:E.
  - destruct b.
    + apply IH.
    + destruct (IH true) as [H1 H2]. simpl. rewrite H1, H2 by reflexivity.
      split; [reflexivity | discriminate].
  - destruct (IH false) as [H1 _]. simpl. rewrite E, H1. auto.
Qed.

Lemma no_double_fixed b s :
  no_double s = true ->
  (b = true -> starts_in is_underscore s = false) ->
  replace_runs is_underscore b s = s.
Proof.
  revert b; induction s as [|c s IH]; intros b; simpl; [reflexivity|].
  rewrite andb_true_iff, negb_true_iff; intros [Hc Hs] Hb.
  destruct (is_underscore c) eqn:E.
  - destruct b; [specialize (Hb eq_refl); discriminate|].
    apply is_underscore_eq in E; subst c. f_equal.
    apply IH; [exact Hs | intros _; exact Hc].
  - f_equal. apply IH; [exact Hs | discriminate].
Qed.

Lemma drop_leading_forallb q cls s :
  forallb q s = true -> forallb q (drop_leading cls s) = true.
Proof.
  induction s as [|c s IH]; simpl; [auto|].
  rewrite andb_true_iff; intros [Hc Hs].
  destruct (cls c); simpl; auto. now rewrite Hc.
Qed.

Lemma drop_leading_no_double cls s :
  no_double s = true -> no_double (drop_leading cls s) = true.
Proof.
  induction s as [|c s IH]; simpl; [auto|].
  intros H. destruct (cls c); [|exact H].
  apply andb_true_iff in H; tauto.
Qed.

Lemma drop_leading_starts cls s : starts_in cls (drop_leading cls s) = false.
Proof.
  induction s as [|c s IH]; simpl; [reflexivity|].
  destruct (cls c) eqn:E; simpl; auto.
Qed.

Lemma drop_leading_fixed cls s :
  starts_in cls s = false -> drop_leading cls s = s.
Proof. destruct s as [|c s]; simpl; [reflexivity|]. now intros ->. Qed.

Lemma drop_trailing_forallb q cls s :
  forallb q s = true -> forallb q (drop_trailing cls s) = true.
Proof.
  induction s as [|c s IH]; simpl; [auto|].
  rewrite andb_true_iff; intros [Hc Hs].
  destruct (cls c && is_empty (drop_trailing cls s)); simpl; auto.
  rewrite Hc; auto.
Qed.

Lemma drop_trailing_starts cls q s :
  starts_in q s = false -> starts_in q (drop_trailing cls s) = false.
Proof.
  destruct s as [|c s]; simpl; [auto|].
  destruct (cls c && is_empty (drop_trailing cls s)); simpl; auto.
Qed.

Lemma drop_trailing_no_double cls s :
  no_double s = true -> no_double (drop_trailing cls s) = true.
Proof.
  induction s as [|c s IH]; simpl; [auto|].
  rewrite andb_true_iff, negb_true_iff; intros [Hc Hs].
  destruct (cls c && is_empty (drop_trailing cls s)); simpl; [reflexivity|].
  rewrite IH by assumption. rewrite andb_true_r, negb_true_iff.
  destruct (is_underscore c); [|reflexivity]. simpl in *.
  now apply drop_trailing_starts.
Qed.

Lemma drop_trailing_ends cls s : ends_in cls (drop_trailing cls s) = false.
Proof.
  induction s as [|c s IH]; simpl; [reflexivity|].
  destruct (cls c) eqn:E; simpl.
  - destruct (drop_trailing cls s) eqn:D; simpl; [reflexivity|].
    simpl in IH. exact IH.
  - destruct (drop_trailing cls s) eqn:D; simpl; [exact E|].
    simpl in IH. exact IH.
Qed.

Lemma drop_trailing_fixed cls s :
  ends_in cls s = false -> drop_trailing cls s = s.
Proof.
  induction s as [|c s IH]; simpl; [reflexivity|].
  destruct s as [|d s]; simpl in *.
  - now intros ->.
  - intros H. rewrite IH by exact H.
    rewrite andb_false_r. reflexivity.
Qed.

Lemma forallb_not_starts cls s :
  forallb (fun c => negb (cls c)) s = true -> starts_in cls s = false.
Proof.
  destruct s as [|c s]; simpl; [reflexivity|].
  rewrite andb_true_iff, negb_true_iff; tauto.
Qed.

Lemma forallb_not_ends cls s :
  forallb (fun c => negb (cls c)) s = true -> ends_in cls s = false.
Proof.
  induction s as [|c s IH]; simpl; [reflexivity|].
  rewrite andb_true_iff, negb_true_iff; intros [Hc Hs].
  destruct s; simpl in *; auto.
Qed.

Lemma valid_no_space s :
  forallb valid_char s = true ->
  forallb (fun c => negb (is_space c)) s = true.
Proof.
  intros H. rewrite forallb_forall in *. intros c Hc.
  specialize (H c Hc). unfold valid_char in H.
  destruct (is_space c) eqn:E; [|reflexivity].
  now rewrite (is_space_invalid c E) in H.
Qed.

Lemma trim_fixed s : forallb valid_char s = true -> trim s = s.
Proof.
  intros H. apply valid_no_space in H. unfold trim.
  rewrite drop_leading_fixed by now apply forallb_not_starts.
  apply drop_trailing_fixed. now apply forallb_not_ends.
Qed.

Lemma sanitize_core_safe s : safe_name (sanitize_core s) = true.
Proof.
  unfold sanitize_core, strip_underscores.
  set (a := replace_runs is_underscore false (replace_runs is_invalid false s)).
  assert (Ha : forallb valid_char a = true)
    by apply replace_runs_underscore_valid, replace_runs_invalid_valid.
  assert (Hd : no_double a = true) by apply replace_runs_no_double.
  set (b := drop_trailing is_underscore (drop_leading is_underscore a)).
  assert (Hb : forallb valid_char b = true)
    by now apply drop_trailing_forallb, drop_leading_forallb.
  rewrite trim_fixed by exact Hb.
  unfold safe_name. rewrite Hb. subst b.
  rewrite drop_trailing_no_double by now apply drop_leading_no_double.
  rewrite drop_trailing_starts by apply drop_leading_starts.
  rewrite drop_trailing_ends. reflexivity.
Qed.

Lemma sanitize_core_fixed s : safe_name s = true -> sanitize_core s = s.
Proof.
  unfold safe_name. rewrite !andb_true_iff, !negb_true_iff.
  intros [[[Hv Hd] Hs] He]. unfold sanitize_core, strip_underscores.
  rewrite (replace_runs_fixed is_invalid) by exact Hv.
  rewrite no_double_fixed by (auto; discriminate).
  rewrite drop_leading_fixed by exact Hs.
  rewrite drop_trailing_fixed by exact He.
  now apply trim_fixed.
Qed.

Lemma sanitizeFilename_string s :
  sanitizeFilename (VStr s) =
  if is_empty (sanitize_core s) then UNNAMED else sanitize_core s.
Proof.
  destruct s as [|c s]; [reflexivity|]. reflexivity.
Qed.

Lemma sanitizeFilename_safe v : safe_name (sanitizeFilename v) = true.
Proof.
  destruct v; try reflexivity. rewrite sanitizeFilename_string.
  destruct (is_empty (sanitize_core s)); [reflexivity|].
  apply sanitize_core_safe.
Qed.

Lemma sanitizeFilename_nonempty v : is_empty (sanitizeFilename v) = false.
Proof.
  destruct v; try reflexivity. rewrite sanitizeFilename_string.
  destruct (sanitize_core s) eqn:E; reflexivity.
Qed.

(** C6. Sanitizing is idempotent: sanitizing the result of sanitizing any
    input (a string or not) gives that result again; the empty string,
    [null] and every other non-string input give the name "unnamed". *)
Theorem sanitizeFilename_idempotent :
  (forall x : jsstring,
      sanitizeFilename (VStr (sanitizeFilename (VStr x)))
      = sanitizeFilename (VStr x))
  /\ sanitizeFilename (VStr []) = u "unnamed"
  /\ sanitizeFilename VNull = u "unnamed"
  /\ (forall v : value,
        match v with
        | VStr _ => sanitizeFilename (VStr (sanitizeFilename v))
                    = sanitizeFilename v
        | _ => sanitizeFilename v = u "unnamed"
        end).
Proof.
  assert (I : forall v, sanitizeFilename (VStr (sanitizeFilename v))
                        = sanitizeFilename v).
  { intros v. rewrite sanitizeFilename_string.
    rewrite sanitize_core_fixed by apply sanitizeFilename_safe.
    now rewrite sanitizeFilename_nonempty. }
  repeat split; auto.
  intros v; destruct v; auto.
Qed.

Lemma replace_runs_all_underscores b s :
  forallb (fun c => is_invalid c || is_underscore c) s = true ->
  forallb is_underscore (replace_runs is_invalid b s) = true.
Proof.
  revert b; induction s as [|c s IH]; intros b; simpl; [reflexivity|].
  rewrite andb_true_iff; intros [Hc Hs].
  destruct (is_invalid c); [destruct b|]; simpl in *; auto.
  rewrite Hc; simpl; auto.
Qed.

Lemma replace_runs_keeps_underscores b s :
  forallb is_underscore s = true ->
  forallb is_underscore (replace_runs is_underscore b s) = true.
Proof.
  revert b; induction s as [|c s IH]; intros b; simpl; [reflexivity|].
  rewrite andb_true_iff; intros [Hc Hs].
  rewrite Hc. destruct b; simpl; auto.
Qed.

Lemma drop_leading_all cls s : forallb cls s = true -> drop_leading cls s = [].
Proof.
  induction s as [|c s IH]; simpl; [reflexivity|].
  rewrite andb_true_iff; intros [-> Hs]; auto.
Qed.

Lemma sanitize_core_junk s :
  forallb (fun c => is_invalid c || is_underscore c) s = true ->
  sanitize_core s = [].
Proof.
  intros H. unfold sanitize_core, strip_underscores.
  rewrite drop_leading_all; [reflexivity|].
  now apply replace_runs_keeps_underscores, replace_runs_all_underscores.
Qed.

(** C10. Whatever the input, the sanitized name is a non-empty string, so
    the file name built from it is never the bare extension [.json]; a name
    made only of characters that are replaced or stripped (slashes, white
    space, underscores and the like) becomes "unnamed". *)
Theorem sanitizeFilename_never_empty (v : value) (s : jsstring) :
  sanitizeFilename v <> []
  /\ sanitizeFilename v ++ u ".json" <> u ".json"
  /\ (forallb (fun c => is_invalid c || is_underscore c) s = true ->
      sanitizeFilename (VStr s) = u "unnamed").
Proof.
  pose proof (sanitizeFilename_nonempty v) as H.
  destruct (sanitizeFilename v) as [|c r] eqn:E; [discriminate|].
  split; [discriminate|]. split.
  - intros C. apply (f_equal (@List.length N)) in C.
    simpl in C. rewrite length_app in C. simpl in C. lia.
  - intros J. rewrite sanitizeFilename_string, sanitize_core_junk by exact J.
    reflexivity.
Qed.

Lemma sanitizeFilename_never_empty_witness :
  sanitizeFilename (VStr (u "/ _/")) = u "unnamed".
Proof.
  apply (sanitizeFilename_never_empty VNull (u "/ _/")). reflexivity.
Defined.

(** ** Key patterns *)

Lemma span_type_spec s t rest :
  span_type s = (t, rest) ->
  s = t ++ rest /\ ~ In BANG t /\ starts_in (fun c => negb (c =? BANG)) rest = false.
Proof.
  revert t rest; induction s as [|c s IH]; simpl; intros t rest.
  - intros E; injection E as <- <-. simpl; tauto.
  - destruct (c =? BANG) eqn:B.
    + intros E; injection E as <- <-. simpl. rewrite B. tauto.
    + destruct (span_type s) as [t' rest'] eqn:S.
      intros E; injection E as <- <-.
      destruct (IH _ _ eq_refl) as (-> & Hn & Hr).
      split; [reflexivity|]. split; [|exact Hr].
      simpl. intros [C | H]; [|tauto].
      subst c. now rewrite N.eqb_refl in B.
Qed.

Lemma match_key_shape key typeSection idSection :
  match_key key = Some (typeSection, idSection) ->
  key = BANG :: typeSection ++ BANG :: idSection
  /\ typeSection <> [] /\ idSection <> [] /\ ~ In BANG typeSection
  /\ forallb (fun x => negb (is_line_terminator x)) idSection = true.
Proof.
  unfold match_key. destruct key as [|c s]; [discriminate|].
  destruct (c =? BANG) eqn:B; [|discriminate].
  apply N.eqb_eq in B; subst c.
  destruct (span_type s) as [t rest] eqn:S.
  destruct (span_type_spec _ _ _ S) as (-> & Hn & Hr).
  destruct t as [|t0 t]; [discriminate|].
  destruct rest as [|r0 [|i0 i]]; try discriminate.
  simpl in Hr. apply negb_false_iff, N.eqb_eq in Hr; subst r0.
  destruct (forallb _ (i0 :: i)) eqn:L; [|discriminate].
  intros E; injection E as <- <-.
  repeat split; auto; discriminate.
Qed.

Lemma no_shape_no_match key : ~ key_shape key -> match_key key = None.
Proof.
  intros H. destruct (match_key key) as [[t i]|] eqn:M; [|reflexivity].
  exfalso; apply H. exists t, i.
  destruct (match_key_shape _ _ _ M) as (? & ? & ? & ? & _). auto.
Qed.

(** ** Records the partition ignores *)

Lemma fold_left_skip {A B : Type} (f : A -> B -> A) (l1 l2 : list B) (x : B)
  (a : A) :
  (forall a', f a' x = a') ->
  fold_left f (l1 ++ x :: l2) a = fold_left f (l1 ++ l2) a.
Proof.
  intros H. rewrite !fold_left_app. simpl. now rewrite H.
Qed.

(** A record whose key has not the prefix [!folders] has no part in the
    folder step. *)
Lemma extractFolders_skip (key : jsstring) (document : value)
  (before after : list (jsstring * value)) (this : dbConvert) :
  startsWith key (u "!folders") = false ->
  extractFolders this (VObj (before ++ (key, document) :: after))
  = extractFolders this (VObj (before ++ after)).
Proof.
  intros F. unfold extractFolders, Object_entries, own_entries. cbn [bind].
  rewrite (fold_left_skip collect_folder); [reflexivity|].
  intros a; unfold collect_folder. now rewrite F.
Qed.

(** A record on which the partition step does nothing has no effect on what
    [organizeDocuments] returns nor on what [extractDocuments] does; when
    its key is not collected by [extractFolders] either, the folder step is
    the same with and without it. *)
Lemma ignored_record (key : jsstring) (document : value)
  (before after : list (jsstring * value)) :
  (forall acc, partition_step acc (key, document) = acc) ->
  organizeDocuments (before ++ (key, document) :: after)
  = organizeDocuments (before ++ after)
  /\ (forall this folderDocuments,
        extractDocuments this (VObj (before ++ (key, document) :: after))
          folderDocuments
        = extractDocuments this (VObj (before ++ after)) folderDocuments)
  /\ (startsWith key (u "!folders") = false ->
      forall this,
        extractFolders this (VObj (before ++ (key, document) :: after))
        = extractFolders this (VObj (before ++ after))).
Proof.
  intros H.
  assert (O : organizeDocuments (before ++ (key, document) :: after)
              = organizeDocuments (before ++ after)).
  { unfold organizeDocuments. now rewrite (fold_left_skip partition_step). }
  split; [exact O|]. split.
  - intros this folderDocuments.
    unfold extractDocuments, Object_entries, own_entries. cbn [bind].
    now rewrite O.
  - intros F this. now apply extractFolders_skip.
Qed.

(** A key without the prefix [!folders!] that has not the shape
    [!<type section>!<id section>] (both non-empty) is ignored by the
    partition: the step leaves both mappings as they are, so the record is
    neither content nor embedded, and what [organizeDocuments] returns and
    what [extractDocuments] writes, counts and raises is what it would be
    without the record.  The folder step is another matter: it is the same
    without the record only when the key has not the prefix [!folders]
    (see [malformed_key_in_folders_file]). *)
Lemma malformed_key_ignored (key : jsstring) (document : value)
  (before after : list (jsstring * value)) :
  startsWith key (u "!folders!") = false ->
  ~ key_shape key ->
  (forall acc, partition_step acc (key, document) = acc)
  /\ organizeDocuments (before ++ (key, document) :: after)
     = organizeDocuments (before ++ after)
  /\ (forall this folderDocuments,
        extractDocuments this (VObj (before ++ (key, document) :: after))
          folderDocuments
        = extractDocuments this (VObj (before ++ after)) folderDocuments)
  /\ (startsWith key (u "!folders") = false ->
      forall this,
        extractFolders this (VObj (before ++ (key, document) :: after))
        = extractFolders this (VObj (before ++ after))).
Proof.
  intros F S.
  assert (H : forall acc, partition_step acc (key, document) = acc).
  { intros acc. unfold partition_step.
    rewrite F, (no_shape_no_match _ S). reflexivity. }
  split; [exact H|]. now apply ignored_record.
Qed.

Lemma span_type_app t rest :
  ~ In BANG t -> span_type (t ++ BANG :: rest) = (t, BANG :: rest).
Proof.
  induction t as [|c t IH]; simpl; intros H.
  - reflexivity.
  - destruct (c =? BANG) eqn:B.
    + apply N.eqb_eq in B. tauto.
    + rewrite IH by tauto. reflexivity.
Qed.

Lemma key_shape_iff key : key_shape key <-> has_shape key = true.
Proof.
  split.
  - intros (t & i & -> & Ht & Hi & Hn). simpl.
    rewrite span_type_app by exact Hn. simpl.
    destruct t; [congruence|]. destruct i; [congruence|]. reflexivity.
  - destruct key as [|c s]; simpl; [discriminate|].
    destruct (span_type s) as [t rest] eqn:S.
    destruct (span_type_spec _ _ _ S) as (-> & Hn & Hr). simpl.
    rewrite !andb_true_iff, N.eqb_eq, negb_true_iff.
    intros [[-> Ht] Hrest].
    destruct rest as [|r0 [|i0 i]]; try discriminate.
    simpl in Hr. apply negb_false_iff, N.eqb_eq in Hr; subst r0.
    exists t, (i0 :: i). repeat split; auto; try discriminate.
    intros ->; discriminate.
Qed.

Lemma malformed_key_ignored_witness :
  organizeDocuments [(u "!actors!a1", VObj []); (u "!actors", VObj [])]
  = organizeDocuments [(u "!actors!a1", VObj [])].
Proof.
  apply (malformed_key_ignored (u "!actors") (VObj [])
           [(u "!actors!a1", VObj [])] []).
  - reflexivity.
  - rewrite key_shape_iff. vm_compute. discriminate.
Defined.

Lemma split_parts sep s :
  exists ps,
    split sep s = fst (split_first sep s) :: ps
    /\ match snd (split_first sep s) with
       | None => ps = []
       | Some r => ps = split sep r
       end.
Proof.
  induction s as [|c s IH]; simpl.
  - exists []; auto.
  - destruct (c =? sep).
    + exists (split sep s); simpl; auto.
    + destruct IH as (ps & -> & H).
      destruct (split_first sep s) as [a b]; simpl in *.
      exists ps; auto.
Qed.

Lemma lacks_half_falsy idSection :
  lacks_half idSection = true ->
  truthy (part 0 (split DOT idSection))
  && truthy (part 1 (split DOT idSection)) = false.
Proof.
  unfold lacks_half.
  destruct (split_parts DOT idSection) as (ps & -> & H).
  unfold part; simpl.
  destruct (fst (split_first DOT idSection)); simpl; [reflexivity|].
  destruct (snd (split_first DOT idSection)) as [r|].
  - destruct r; [|discriminate]. subst ps. reflexivity.
  - subst ps. reflexivity.
Qed.

(** A record whose key has a [.] in its type section but whose id section,
    cut at its first [.], has no parent half or no child half is dropped by
    the partition: the step leaves both mappings as they are, so the record
    reaches no parent and no file of its own, and what [organizeDocuments]
    returns and what [extractDocuments] writes, counts and raises is what it
    would be without the record.  The folder step is another matter: it is
    the same without the record only when the key has not the prefix
    [!folders] (see [incomplete_embedded_key_in_folders_file]). *)
Lemma incomplete_embedded_key_dropped (key : jsstring) (document : value)
  (before after : list (jsstring * value)) (typeSection idSection : jsstring) :
  match_key key = Some (typeSection, idSection) ->
  includes DOT typeSection = true ->
  lacks_half idSection = true ->
  (forall acc, partition_step acc (key, document) = acc)
  /\ organizeDocuments (before ++ (key, document) :: after)
     = organizeDocuments (before ++ after)
  /\ (forall this folderDocuments,
        extractDocuments this (VObj (before ++ (key, document) :: after))
          folderDocuments
        = extractDocuments this (VObj (before ++ after)) folderDocuments)
  /\ (startsWith key (u "!folders") = false ->
      forall this,
        extractFolders this (VObj (before ++ (key, document) :: after))
        = extractFolders this (VObj (before ++ after))).
Proof.
  intros M D L.
  assert (H : forall acc, partition_step acc (key, document) = acc).
  { intros acc. unfold partition_step. rewrite M, D.
    rewrite (lacks_half_falsy _ L).
    destruct (startsWith key (u "!folders!")); reflexivity. }
  split; [exact H|]. now apply ignored_record.
Qed.

Lemma incomplete_embedded_key_dropped_witness :
  organizeDocuments
    [(u "!actors!P1", VObj []); (u "!actors.items!P1", VObj [])]
  = organizeDocuments [(u "!actors!P1", VObj [])].
Proof.
  apply (incomplete_embedded_key_dropped (u "!actors.items!P1") (VObj [])
           [(u "!actors!P1", VObj [])] [] (u "actors.items") (u "P1"));
    reflexivity.
Defined.

(** ** Nesting embedded documents *)

Lemma partition_step_top acc entry :
  topLevelDocuments (partition_step acc entry)
  = top_step (topLevelDocuments acc) entry.
Proof.
  destruct entry as [key document].
  unfold partition_step, top_step, is_top_level; cbn [fst snd].
  destruct (startsWith key (u "!folders!")); [reflexivity|].
  destruct (match_key key) as [[t i]|]; [|reflexivity].
  destruct (includes DOT t); cbn [negb andb]; [|reflexivity].
  destruct (truthy _ && truthy _); [|reflexivity].
  destruct (parentKeyOf _ _); reflexivity.
Qed.

Lemma partition_step_not_embedded acc entry :
  is_embedded (fst entry) = false ->
  embeddedDocuments (partition_step acc entry) = embeddedDocuments acc.
Proof.
  destruct entry as [key document].
  unfold partition_step, is_embedded, embedded_parent; cbn [fst snd].
  destruct (startsWith key (u "!folders!")); [reflexivity|].
  destruct (match_key key) as [[t i]|]; [|reflexivity].
  rewrite <- andb_assoc.
  destruct (includes DOT t); cbn [andb]; [|reflexivity].
  destruct (truthy _ && truthy _); [|reflexivity].
  destruct (parentKeyOf _ _); [discriminate | reflexivity].
Qed.

Lemma partition_step_embedded acc key document parentKey :
  embedded_parent key = Some parentKey ->
  exists item,
    item_document item = document
    /\ embeddedDocuments (partition_step acc (key, document))
       = assoc_push parentKey item (embeddedDocuments acc).
Proof.
  unfold partition_step, embedded_parent.
  destruct (startsWith key (u "!folders!")); [discriminate|].
  destruct (match_key key) as [[t i]|]; [|discriminate].
  rewrite <- andb_assoc.
  destruct (includes DOT t); cbn [andb]; [|discriminate].
  destruct (truthy _ && truthy _); [|discriminate].
  intros ->. eexists. split; [|reflexivity]. reflexivity.
Qed.

Lemma fold_partition_top l acc :
  topLevelDocuments (fold_left partition_step l acc)
  = fold_left top_step l (topLevelDocuments acc).
Proof.
  revert acc; induction l as [|e l IH]; intros acc; simpl; [reflexivity|].
  now rewrite IH, partition_step_top.
Qed.

Lemma fold_partition_not_embedded l acc :
  forallb (fun e => negb (is_embedded (fst e))) l = true ->
  embeddedDocuments (fold_left partition_step l acc) = embeddedDocuments acc.
Proof.
  revert acc; induction l as [|e l IH]; intros acc; simpl; [reflexivity|].
  rewrite andb_true_iff, negb_true_iff; intros [He Hl].
  now rewrite IH, partition_step_not_embedded.
Qed.

Lemma forallb_app_inv {A : Type} (f : A -> bool) l1 l2 :
  forallb f (l1 ++ l2) = true -> forallb f l1 = true /\ forallb f l2 = true.
Proof. rewrite forallb_app, andb_true_iff; tauto. Qed.

Lemma assoc_get_set_same {V : Type} k (v : V) o :
  assoc_get k (assoc_set k v o) = Some v.
Proof.
  induction o as [|[k' v'] o IH]; simpl.
  - now rewrite str_eqb_refl.
  - destruct (str_eqb k k') eqn:E; simpl; now rewrite E.
Qed.

Lemma assoc_get_set_other {V : Type} k k' (v : V) o :
  str_eqb k k' = false -> assoc_get k (assoc_set k' v o) = assoc_get k o.
Proof.
  intros N. induction o as [|[k2 v2] o IH]; simpl.
  - now rewrite N.
  - destruct (str_eqb k' k2) eqn:E; simpl.
    + apply str_eqb_eq in E; subst k2. now rewrite N.
    + now rewrite IH.
Qed.

Lemma fold_top_absent k l top :
  has_key k l = false ->
  assoc_get k (fold_left top_step l top) = assoc_get k top.
Proof.
  revert top; induction l as [|[k' d] l IH]; intros top; simpl;
    [reflexivity|].
  rewrite orb_false_iff; intros [N H]. rewrite IH by exact H.
  unfold top_step; simpl. destruct (is_top_level k'); [|reflexivity].
  now apply assoc_get_set_other.
Qed.

Lemma has_key_app {V : Type} k (l1 l2 : list (jsstring * V)) :
  has_key k (l1 ++ l2) = has_key k l1 || has_key k l2.
Proof. apply existsb_app. Qed.

Lemma fold_top_present k d l top :
  unique_keys l = true -> In (k, d) l -> is_top_level k = true ->
  assoc_get k (fold_left top_step l top) = Some (spread d).
Proof.
  revert top; induction l as [|[k' d'] l IH]; intros top; simpl; [tauto|].
  rewrite andb_true_iff, negb_true_iff; intros [N U] [E | I] T.
  - injection E as -> ->. rewrite fold_top_absent by exact N.
    unfold top_step; simpl. rewrite T. apply assoc_get_set_same.
  - now apply IH.
Qed.

(** In a store (keys unique) whose only embedded record is [(key, child)],
    filed under [parentKey]: when the store holds a top-level document at
    [parentKey], the document the write loop is given for that key is the
    copy of the parent with an [embedded] array whose single element is the
    child's body; when the store has no record at [parentKey], the top-level
    documents, and with them every write, every count and every error of
    [extractDocuments], are what they are without the child.  The folder
    step is another matter: it is the same without the child only when the
    child's key has not the prefix [!folders] (see
    [orphan_embedded_record_in_folders_file]). *)
Lemma embedded_document_nesting (before after : list (jsstring * value))
  (key : jsstring) (child : value) (parentKey : jsstring) :
  unique_keys (before ++ (key, child) :: after) = true ->
  embedded_parent key = Some parentKey ->
  forallb (fun e => negb (is_embedded (fst e))) (before ++ after) = true ->
  (forall parent,
      In (parentKey, parent) (before ++ (key, child) :: after) ->
      is_top_level parentKey = true ->
      assoc_get parentKey
        (topLevelDocuments
           (organizeDocuments (before ++ (key, child) :: after)))
      = Some (set_prop (spread parent) (u "embedded") (VArr [child]))
      /\ get_prop (set_prop (spread parent) (u "embedded") (VArr [child]))
           (u "embedded") = VArr [child])
  /\ (has_key parentKey (before ++ (key, child) :: after) = false ->
      topLevelDocuments (organizeDocuments (before ++ (key, child) :: after))
      = topLevelDocuments (organizeDocuments (before ++ after))
      /\ (forall this folderDocuments,
            extractDocuments this (VObj (before ++ (key, child) :: after))
              folderDocuments
            = extractDocuments this (VObj (before ++ after)) folderDocuments)
      /\ (startsWith key (u "!folders") = false ->
          forall this,
            extractFolders this (VObj (before ++ (key, child) :: after))
            = extractFolders this (VObj (before ++ after)))).
Proof.
  intros U P O.
  destruct (forallb_app_inv _ _ _ O) as [Ob Oa].
  set (docs := before ++ (key, child) :: after) in *.
  set (empty := {| topLevelDocuments := []; embeddedDocuments := [] |}).
  assert (T : topLevelDocuments (fold_left partition_step docs empty)
              = fold_left top_step docs []) by apply fold_partition_top.
  assert (E : exists item,
             item_document item = child
             /\ embeddedDocuments (fold_left partition_step docs empty)
                = [(parentKey, [item])]).
  { subst docs. rewrite fold_left_app. cbn [fold_left].
    rewrite fold_partition_not_embedded by exact Oa.
    destruct (partition_step_embedded
                (fold_left partition_step before empty) key child parentKey P)
      as (item & Hi & ->).
    rewrite fold_partition_not_embedded by exact Ob.
    exists item; auto. }
  destruct E as (item & Hi & E).
  assert (T0 : topLevelDocuments (organizeDocuments (before ++ after))
               = fold_left top_step (before ++ after) []).
  { unfold organizeDocuments; cbn [topLevelDocuments]. fold empty.
    rewrite fold_partition_not_embedded by exact O.
    cbn [embeddedDocuments empty fold_left].
    apply fold_partition_top. }
  assert (K : is_top_level key = false).
  { unfold is_top_level. unfold embedded_parent in P.
    destruct (startsWith key (u "!folders!")); [reflexivity|].
    destruct (match_key key) as [[t i]|]; [|reflexivity].
    destruct (includes DOT t); [reflexivity | discriminate]. }
  assert (S : fold_left top_step docs []
              = fold_left top_step (before ++ after) []).
  { subst docs. rewrite !fold_left_app. cbn [fold_left].
    unfold top_step at 2. cbn [fst snd]. now rewrite K. }
  assert (R : topLevelDocuments (organizeDocuments docs)
              = attach_step (fold_left top_step docs []) (parentKey, [item])).
  { unfold organizeDocuments; cbn [topLevelDocuments]. fold empty.
    rewrite E, T. reflexivity. }
  split.
  - intros parent I L. split.
    + rewrite R. unfold attach_step.
      rewrite (fold_top_present parentKey parent docs [] U I L).
      cbn [map]. rewrite Hi. apply assoc_get_set_same.
    + unfold set_prop, spread, get_prop. now rewrite assoc_get_set_same.
  - intros H.
    assert (Q : topLevelDocuments (organizeDocuments docs)
                = topLevelDocuments (organizeDocuments (before ++ after))).
    { rewrite T0, R. unfold attach_step.
      rewrite (fold_top_absent parentKey docs [] H). exact S. }
    split; [exact Q|]. split.
    + intros this folderDocuments.
      unfold extractDocuments, Object_entries, own_entries. cbn [bind].
      fold docs. now rewrite Q.
    + intros F this. now apply extractFolders_skip.
Qed.

Lemma embedded_document_nesting_witness :
  assoc_get (u "!actor!P1")
    (topLevelDocuments
       (organizeDocuments
          [(u "!actor!P1", VObj [(u "name", VStr (u "Hero"))]);
           (u "!actor.item!P1.C1", VObj [(u "name", VStr (u "Sword"))])]))
  = Some (VObj [(u "name", VStr (u "Hero"));
                (u "embedded", VArr [VObj [(u "name", VStr (u "Sword"))]])]).
Proof.
  exact (proj1 (proj1 (embedded_document_nesting
           [(u "!actor!P1", VObj [(u "name", VStr (u "Hero"))])] []
           (u "!actor.item!P1.C1") (VObj [(u "name", VStr (u "Sword"))])
           (u "!actor!P1") eq_refl eq_refl eq_refl)
         (VObj [(u "name", VStr (u "Hero"))]) (or_introl eq_refl) eq_refl)).
Defined.

(** ** Resolving folder paths *)

(** The parts of a split are strings, and so is [undefined] printed: the
    template literal of [organizeDocuments] never throws. *)
Lemma parentKeyOf_parts (i j : nat) (a b : list jsstring) :
  exists parentKey, parentKeyOf (part i a) (part j b) = Some parentKey.
Proof.
  unfold parentKeyOf, part.
  destruct (nth_error a i), (nth_error b j); cbn [toString]; eexists;
    reflexivity.
Qed.

Section Walk.

Variable folderDocuments : list (jsstring * value).

Lemma walk_folders_step fuel id acc :
  walk_folders (S fuel) folderDocuments id acc =
  if truthy id then
    match folderKeyOf id with
    | None => Throw TypeError
    | Some folderKey =>
        if negb (truthy (folder_at folderDocuments folderKey)) then
          Console (WarnFolderReferenceNotFound folderKey) (Ret acc)
        else
          walk_folders fuel folderDocuments
            (get_prop (folder_at folderDocuments folderKey) (u "folder"))
            (sanitized_name (folder_at folderDocuments folderKey) :: acc)
    end
  else Ret acc.
Proof.
  unfold folderKeyOf. cbn [walk_folders].
  destruct (truthy id); [|reflexivity].
  destruct (toString id); reflexivity.
Qed.

Lemma walk_folders_falsy fuel id acc :
  truthy id = false -> walk_folders fuel folderDocuments id acc = Ret acc.
Proof. intros H. destruct fuel; simpl; now rewrite H. Qed.

Lemma folder_found_key id d :
  folder_found folderDocuments id = Some d ->
  exists folderKey,
    folderKeyOf id = Some folderKey
    /\ assoc_get folderKey folderDocuments = Some d.
Proof.
  unfold folder_found. destruct (folderKeyOf id) as [k|]; [|discriminate].
  intros G. exists k. auto.
Qed.

(** One iteration that finds a folder document. *)
Lemma walk_folders_hop fuel id acc d :
  truthy id = true ->
  folder_found folderDocuments id = Some d ->
  truthy d = true ->
  walk_folders (S fuel) folderDocuments id acc
  = walk_folders fuel folderDocuments (get_prop d (u "folder"))
      (sanitized_name d :: acc).
Proof.
  intros Ti G Td. destruct (folder_found_key _ _ G) as (k & K & A).
  rewrite walk_folders_step, Ti, K. unfold folder_at. rewrite A, Td.
  reflexivity.
Qed.

(** The last iteration. *)
Lemma walk_folders_last fuel last acc :
  ends_at folderDocuments last = true ->
  walk_folders (S fuel) folderDocuments last acc = walk_end last (Ret acc).
Proof.
  unfold ends_at, stops, throws, walk_end. rewrite walk_folders_step.
  destruct (truthy last); [|reflexivity].
  destruct (folderKeyOf last) as [k|]; [|reflexivity].
  cbn [negb andb orb]. rewrite orb_false_r. now intros ->.
Qed.

Lemma walk_chain hops : forall fuel id acc last,
  chain folderDocuments id hops last ->
  ends_at folderDocuments last = true ->
  (List.length hops < fuel)%nat ->
  walk_folders fuel folderDocuments id acc
  = walk_end last (Ret (rev (map sanitized_name hops) ++ acc)).
Proof.
  induction hops as [|d rest IH]; intros fuel id acc last C S L.
  - simpl in C; subst id.
    destruct fuel as [|fuel]; [simpl in L; lia|].
    now apply walk_folders_last.
  - destruct C as (Ti & G & Td & C).
    destruct fuel as [|fuel]; [simpl in L; lia|].
    rewrite (walk_folders_hop _ _ _ _ Ti G Td).
    rewrite (IH fuel _ _ last C S) by (simpl in L; lia).
    simpl. now rewrite <- app_assoc.
Qed.

(** Where a folder document is found the walk does not end. *)
Lemma found_goes_on id d :
  truthy id = true ->
  folder_found folderDocuments id = Some d ->
  truthy d = true ->
  ends_at folderDocuments id = false.
Proof.
  intros Ti G Td. destruct (folder_found_key _ _ G) as (k & K & A).
  unfold ends_at, stops, throws, folder_at. now rewrite Ti, K, A, Td.
Qed.

Lemma chain_deterministic h1 : forall id h2 l1 l2,
  chain folderDocuments id h1 l1 -> ends_at folderDocuments l1 = true ->
  chain folderDocuments id h2 l2 -> ends_at folderDocuments l2 = true ->
  h1 = h2.
Proof.
  assert (X : forall id d r l,
             chain folderDocuments id (d :: r) l ->
             ends_at folderDocuments id = true -> False).
  { intros id d r l (Ti & G & Td & _) E.
    rewrite (found_goes_on _ _ Ti G Td) in E. discriminate. }
  induction h1 as [|d r IH]; intros id [|d' r'] l1 l2 C1 S1 C2 S2.
  - reflexivity.
  - simpl in C1; subst l1. exfalso; eauto.
  - simpl in C2; subst l2. exfalso; eauto.
  - destruct C1 as (_ & G1 & _ & C1). destruct C2 as (_ & G2 & _ & C2).
    rewrite G1 in G2; injection G2 as <-.
    f_equal. eapply IH; eauto.
Qed.

Lemma chain_keys_suffix k hops : forall id last,
  In k (chain_keys id hops) ->
  chain folderDocuments id hops last ->
  exists id' d suffix,
    chain folderDocuments id' (d :: suffix) last
    /\ k = folderKeyOf id'
    /\ (List.length (d :: suffix) <= List.length hops)%nat.
Proof.
  induction hops as [|d rest IH]; intros id last I C; [destruct I|].
  destruct I as [<- | I].
  - exists id, d, rest. auto.
  - destruct C as (_ & _ & _ & C).
    destruct (IH _ _ I C) as (id' & d' & suffix & C' & K & L).
    exists id', d', suffix.
    split; [exact C'|]. split; [exact K|]. simpl in *; lia.
Qed.

Lemma chain_keys_nodup hops : forall id last,
  chain folderDocuments id hops last ->
  ends_at folderDocuments last = true ->
  NoDup (chain_keys id hops).
Proof.
  induction hops as [|d rest IH]; intros id last C S; simpl;
    [constructor|].
  pose proof C as (_ & G & _ & C').
  constructor; [|eapply IH; eauto].
  intros I.
  destruct (chain_keys_suffix _ _ _ _ I C')
    as (id' & d' & suffix & (_ & G' & _ & C'') & K & L).
  unfold folder_found in G, G'. rewrite <- K, G in G'. injection G' as <-.
  pose proof (chain_deterministic _ _ _ _ _ C' S C'' S) as E.
  subst suffix. simpl in L. lia.
Qed.

Lemma assoc_get_in {V : Type} k (o : list (jsstring * V)) v :
  assoc_get k o = Some v -> In k (map fst o).
Proof.
  induction o as [|[k' v'] o IH]; simpl; [discriminate|].
  destruct (str_eqb k k') eqn:E; [|auto].
  apply str_eqb_eq in E; auto.
Qed.

Lemma chain_keys_incl hops : forall id last,
  chain folderDocuments id hops last ->
  incl (chain_keys id hops) (map Some (map fst folderDocuments)).
Proof.
  induction hops as [|d rest IH]; intros id last C k I; [destruct I|].
  destruct C as (_ & G & _ & C). destruct I as [<- | I].
  - destruct (folder_found_key _ _ G) as (key & -> & A).
    apply in_map. eapply assoc_get_in; eauto.
  - eapply IH; eauto.
Qed.

Lemma chain_keys_length hops : forall id,
  List.length (chain_keys id hops) = List.length hops.
Proof. induction hops; intros id; simpl; auto. Qed.

(** A walk that ends has found each folder document once. *)
Lemma chain_bound id hops last :
  chain folderDocuments id hops last ->
  ends_at folderDocuments last = true ->
  (List.length hops <= List.length folderDocuments)%nat.
Proof.
  intros C S.
  rewrite <- (chain_keys_length hops id).
  rewrite <- (length_map fst folderDocuments).
  rewrite <- (length_map Some (map fst folderDocuments)).
  apply NoDup_incl_length.
  - eapply chain_keys_nodup; eauto.
  - eapply chain_keys_incl; eauto.
Qed.

Lemma walk_shape fuel : forall id acc,
  walk_folders fuel folderDocuments id acc = Hang
  \/ exists hops last,
       chain folderDocuments id hops last
       /\ ends_at folderDocuments last = true.
Proof.
  induction fuel as [|fuel IH]; intros id acc.
  - simpl. destruct (truthy id) eqn:T; [left; reflexivity|].
    right. exists [], id. split; [reflexivity|].
    unfold ends_at, stops. now rewrite T.
  - destruct (ends_at folderDocuments id) eqn:E.
    { right. exists [], id. split; [reflexivity | exact E]. }
    unfold ends_at, stops, throws in E.
    destruct (truthy id) eqn:T; [|discriminate].
    destruct (folderKeyOf id) as [k|] eqn:K; [|discriminate].
    cbn [negb andb orb] in E. rewrite orb_false_r in E.
    apply negb_false_iff in E.
    assert (G : folder_found folderDocuments id
                = Some (folder_at folderDocuments k)).
    { unfold folder_found, folder_at in *. rewrite K.
      destruct (assoc_get k folderDocuments); [reflexivity | discriminate]. }
    rewrite (walk_folders_hop _ _ _ _ T G E).
    destruct (IH (get_prop (folder_at folderDocuments k) (u "folder"))
                (sanitized_name (folder_at folderDocuments k) :: acc))
      as [H | (hops & last & C & S)]; [left; exact H|].
    right. exists (folder_at folderDocuments k :: hops), last.
    split; [|exact S]. simpl. auto.
Qed.

(** The fuel [resolveFolderPath] gives the walk is enough: a walk that
    has not ended when it is spent never ends. *)
Lemma walk_folders_hang_forever id acc :
  walk_folders (S (List.length folderDocuments)) folderDocuments id acc = Hang ->
  forall fuel acc', walk_folders fuel folderDocuments id acc' = Hang.
Proof.
  intros H fuel acc'.
  destruct (walk_shape fuel id acc') as [E | (hops & last & C & S)];
    [exact E|].
  exfalso.
  rewrite (walk_chain hops _ id acc last C S) in H.
  - unfold walk_end in H.
    destruct (truthy last); [destruct (folderKeyOf last)|]; discriminate.
  - pose proof (chain_bound _ _ _ C S). lia.
Qed.

Lemma resolve_chain document hops last :
  chain folderDocuments (get_prop document (u "folder")) hops last ->
  ends_at folderDocuments last = true ->
  resolveFolderPath document folderDocuments
  = walk_end last (Ret (rev (map sanitized_name hops))).
Proof.
  intros C S. unfold resolveFolderPath.
  destruct (truthy (get_prop document (u "folder"))) eqn:T; cbn [negb].
  - rewrite (walk_chain hops _ _ [] last C S).
    + now rewrite app_nil_r.
    + pose proof (chain_bound _ _ _ C S). lia.
  - destruct hops as [|d rest].
    + simpl in C. rewrite <- C. unfold walk_end. now rewrite T.
    + destruct C as (Ti & _). congruence.
Qed.

(** The resolver hangs, or it has walked a chain to its end. *)
Lemma resolve_cases document :
  resolveFolderPath document folderDocuments = Hang
  \/ exists hops last,
       chain folderDocuments (get_prop document (u "folder")) hops last
       /\ ends_at folderDocuments last = true
       /\ (List.length hops <= List.length folderDocuments)%nat
       /\ resolveFolderPath document folderDocuments
          = walk_end last (Ret (rev (map sanitized_name hops))).
Proof.
  destruct (truthy (get_prop document (u "folder"))) eqn:T.
  - unfold resolveFolderPath at 1. rewrite T. cbn [negb].
    destruct (walk_shape (S (List.length folderDocuments))
                (get_prop document (u "folder")) [])
      as [H | (hops & last & C & S)]; [left; exact H|].
    right. exists hops, last.
    split; [exact C|]. split; [exact S|].
    split; [exact (chain_bound _ _ _ C S)|]. now apply resolve_chain.
  - right. exists [], (get_prop document (u "folder")).
    split; [reflexivity|]. split; [unfold ends_at, stops; now rewrite T|].
    split; [simpl; lia|]. apply resolve_chain; [reflexivity|].
    unfold ends_at, stops; now rewrite T.
Qed.

(** What the resolver comes to, without the chain. *)
Lemma resolve_outcomes document :
  resolveFolderPath document folderDocuments = Hang
  \/ resolveFolderPath document folderDocuments = Throw TypeError
  \/ exists warnings folderPath,
       resolveFolderPath document folderDocuments
       = emit warnings (Ret folderPath)
       /\ pure_run (resolveFolderPath document folderDocuments)
          = Some (warnings, folderPath).
Proof.
  destruct (resolve_cases document) as [H | (hops & last & _ & _ & _ & R)];
    [left; exact H|].
  right. rewrite R. unfold walk_end.
  destruct (truthy last); [destruct (folderKeyOf last) as [k|]|].
  - right. exists [WarnFolderReferenceNotFound k], (rev (map sanitized_name hops)).
    split; reflexivity.
  - left. reflexivity.
  - right. exists [], (rev (map sanitized_name hops)). split; reflexivity.
Qed.

(** Walking a chain uses one iteration per folder found. *)
Lemma walk_along hops : forall fuel id acc last,
  chain folderDocuments id hops last ->
  walk_folders (List.length hops + fuel) folderDocuments id acc
  = walk_folders fuel folderDocuments last
      (rev (map sanitized_name hops) ++ acc).
Proof.
  induction hops as [|d rest IH]; intros fuel id acc last C.
  - simpl in C; subst id. reflexivity.
  - destruct C as (Ti & G & Td & C). cbn [List.length Nat.add].
    rewrite (walk_folders_hop _ _ _ _ Ti G Td), (IH fuel _ _ last C).
    simpl. now rewrite <- app_assoc.
Qed.

(** A walk cut before the end of a chain whose end is a reference has not
    stopped. *)
Lemma walk_cut hops : forall fuel id acc last,
  chain folderDocuments id hops last ->
  truthy last = true ->
  (fuel <= List.length hops)%nat ->
  walk_folders fuel folderDocuments id acc = Hang.
Proof.
  induction hops as [|d rest IH]; intros fuel id acc last C T L.
  - simpl in C; subst id. simpl in L.
    assert (fuel = 0%nat) as -> by lia. simpl. now rewrite T.
  - pose proof C as (Ti & G & Td & C').
    destruct fuel as [|fuel]; [simpl; now rewrite Ti|].
    rewrite (walk_folders_hop _ _ _ _ Ti G Td).
    apply (IH fuel _ _ last C' T). simpl in L; lia.
Qed.

Lemma walk_round d cycle id :
  chain folderDocuments id (d :: cycle) id ->
  forall fuel acc, walk_folders fuel folderDocuments id acc = Hang.
Proof.
  intros C fuel.
  induction fuel as [fuel IH] using (well_founded_induction lt_wf).
  intros acc.
  pose proof C as (Ti & _).
  destruct (Nat.le_gt_cases fuel (List.length (d :: cycle))) as [L | L].
  - exact (walk_cut _ _ _ _ _ C Ti L).
  - replace fuel
      with (List.length (d :: cycle) + (fuel - List.length (d :: cycle)))%nat
      by lia.
    rewrite (walk_along _ _ _ _ _ C). apply IH. simpl in *; lia.
Qed.

End Walk.




(** ** The write loop *)

Lemma pure_run_emit {A : Type} (p : prog A) ls a :
  pure_run p = Some (ls, a) -> p = emit ls (Ret a).
Proof.
  revert ls; induction p; intros ls; simpl; try discriminate.
  - intros E; injection E as <- <-. reflexivity.
  - destruct (pure_run p) as [[ls' a']|]; [|discriminate].
    intros E; injection E as <- <-. simpl. f_equal. now apply IHp.
Qed.

Lemma bind_emit {A B : Type} ls (p : prog A) (f : A -> prog B) :
  bind (emit ls p) f = emit ls (bind p f).
Proof. induction ls; simpl; congruence. Qed.

Lemma try_catch_emit {A : Type} ls (p : prog A) h :
  try_catch (emit ls p) h = emit ls (try_catch p h).
Proof. induction ls; simpl; congruence. Qed.

Lemma attempts_successes this folderDocuments docs cs ls count :
  attempts this folderDocuments docs cs ls count -> count = successes cs.
Proof.
  unfold successes. induction 1 as [|entry rest c l ok cs ls count A _ IH];
    [reflexivity|].
  rewrite filter_app, length_app, <- IH. f_equal.
  destruct A; reflexivity.
Qed.

Section WriteLoop.

Variable world : Type.
Variable handle : fsop -> world -> reply * world.
Variable this : dbConvert.
Variable folderDocuments : list (jsstring * value).

Lemma eval_emit {A : Type} ls (p : prog A) w :
  ended (eval handle (emit ls p) w) = ended (eval handle p w)
  /\ final (eval handle (emit ls p) w) = final (eval handle p w)
  /\ printed (eval handle (emit ls p) w) = ls ++ printed (eval handle p w)
  /\ calls (eval handle (emit ls p) w) = calls (eval handle p w).
Proof.
  induction ls as [|l ls IH]; simpl; [auto|].
  destruct IH as (-> & -> & -> & ->). auto.
Qed.

(** The loop from any count and any world, for documents whose folder
    walks end. *)
Lemma write_loop_attempts docs : forall extractedCount w,
  forallb (walk_ends folderDocuments) docs = true ->
  exists count,
    attempts this folderDocuments docs
      (calls (eval handle (write_loop this docs folderDocuments extractedCount) w))
      (printed (eval handle (write_loop this docs folderDocuments extractedCount) w))
      count
    /\ ended (eval handle (write_loop this docs folderDocuments extractedCount) w)
       = Returned (extractedCount + count)%nat.
Proof.
  induction docs as [|[key document] rest IH]; intros n w E.
  - exists 0%nat. simpl. split; [constructor | f_equal; lia].
  - simpl in E. apply andb_true_iff in E. destruct E as [E1 E2].
    unfold walk_ends in E1. cbn [snd] in E1.
    destruct (resolve_outcomes folderDocuments document)
      as [H | [H | (warnings & folderPath & R & P)]].
    { rewrite H in E1. discriminate. }
    { cbn [write_loop]. unfold write_document. rewrite H.
      cbn [bind try_catch eval ended calls printed].
      destruct (IH n w E2) as (count & A & ->).
      exists (0 + count)%nat. split; [|f_equal; lia].
      apply (attempts_cons this folderDocuments (key, document) rest
               [] [_] false); [|exact A].
      now apply attempt_not_resolved. }
    cbn [write_loop]. unfold write_document. rewrite R.
    rewrite !bind_emit, try_catch_emit, bind_emit.
    match goal with
    | |- context [eval handle (emit warnings ?p) w] =>
        destruct (eval_emit warnings p w) as (-> & _ & -> & ->)
    end.
    cbn [bind try_catch await eval].
    destruct (handle (Mkdir (path_join (outputDir this) folderPath)) w)
      as [[d|code] w1].
    + cbn [bind try_catch await eval].
      destruct (handle (WriteFile _ document) w1) as [[d'|code] w2].
      * cbn [bind try_catch eval ended calls printed].
        destruct (IH (S n) w2 E2) as (count & A & ->).
        exists (1 + count)%nat. split; [|f_equal; lia].
        rewrite <- (app_nil_r warnings) at 1. rewrite <- app_assoc.
        apply (attempts_cons this folderDocuments (key, document) rest
                 [_; _] warnings true); [|exact A].
        now apply attempt_written.
      * cbn [bind try_catch eval ended calls printed].
        destruct (IH n w2 E2) as (count & A & ->).
        exists (0 + count)%nat. split; [|f_equal; lia].
        change (warnings ++ ?x :: ?y) with (warnings ++ [x] ++ y).
        rewrite app_assoc.
        apply (attempts_cons this folderDocuments (key, document) rest
                 [_; _] _ false); [|exact A].
        now apply attempt_write_rejected.
    + cbn [bind try_catch eval ended calls printed].
      destruct (IH n w1 E2) as (count & A & ->).
      exists (0 + count)%nat. split; [|f_equal; lia].
      change (warnings ++ ?x :: ?y) with (warnings ++ [x] ++ y).
      rewrite app_assoc.
      apply (attempts_cons this folderDocuments (key, document) rest
               [_] _ false); [|exact A].
      now apply attempt_mkdir_rejected.
Qed.

End WriteLoop.

Section Runs.

Variable world : Type.
Variable handle : fsop -> world -> reply * world.

Lemma eval_bind_returned {A B : Type} (p : prog A) (f : A -> prog B) :
  forall w b,
    ended (eval handle p w) = Returned b ->
    ended (eval handle (bind p f) w)
    = ended (eval handle (f b) (final (eval handle p w)))
    /\ final (eval handle (bind p f) w)
       = final (eval handle (f b) (final (eval handle p w)))
    /\ printed (eval handle (bind p f) w)
       = printed (eval handle p w)
         ++ printed (eval handle (f b) (final (eval handle p w)))
    /\ calls (eval handle (bind p f) w)
       = calls (eval handle p w)
         ++ calls (eval handle (f b) (final (eval handle p w))).
Proof.
  induction p as [A a'|A e|A|A o k IH|A l k IH|A t _ k IH]; intros w b;
    simpl; try discriminate.
  - intros E; injection E as ->. auto.
  - destruct (handle o w) as [r w1]. simpl. intros E.
    destruct (IH r f w1 b E) as (-> & -> & -> & ->). auto.
  - intros E. destruct (IH f w b E) as (-> & -> & -> & ->). auto.
  - intros E. destruct (IH f w b E) as (-> & -> & -> & ->). auto.
Qed.

End Runs.

(** C8. In the write loop whatever fails for one document (its folder path
    cannot be resolved, its [mkdir] or its [writeFile] is rejected) is
    caught and logged, and the loop goes on: whatever [fs] does, every
    top-level document gets its own attempt, the run of [extractDocuments]
    returns without raising, and the count it reports is the number of
    documents whose [writeFile] succeeded.  (The folder walks are taken to
    end: a cyclic folder graph is outside the converter's contract.) *)
Theorem write_failures_do_not_abort (world : Type)
  (handle : fsop -> world -> reply * world) (this : dbConvert)
  (allDocuments : value) (folderDocuments : list (jsstring * value))
  (w : world) :
  nullish allDocuments = false ->
  forallb (walk_ends folderDocuments)
    (topLevelDocuments (organizeDocuments (own_entries allDocuments))) = true ->
  exists count logs,
    attempts this folderDocuments
      (topLevelDocuments (organizeDocuments (own_entries allDocuments)))
      (calls (eval handle (extractDocuments this allDocuments folderDocuments) w))
      logs count
    /\ count
       = successes
           (calls (eval handle
                     (extractDocuments this allDocuments folderDocuments) w))
    /\ printed (eval handle (extractDocuments this allDocuments folderDocuments) w)
       = logs ++ [LogExtractedDocuments count]
    /\ ended (eval handle (extractDocuments this allDocuments folderDocuments) w)
       = Returned tt.
Proof.
  intros N E.
  set (docs := topLevelDocuments (organizeDocuments (own_entries allDocuments)))
    in *.
  assert (X : extractDocuments this allDocuments folderDocuments
              = bind (write_loop this docs folderDocuments 0%nat)
                  (fun extractedCount =>
                     log (LogExtractedDocuments extractedCount))).
  { unfold extractDocuments, Object_entries.
    destruct allDocuments; try discriminate; reflexivity. }
  rewrite X.
  destruct (write_loop_attempts world handle this folderDocuments docs 0%nat w E)
    as (count & A & R).
  destruct (eval_bind_returned world handle _
              (fun extractedCount => log (LogExtractedDocuments extractedCount))
              w _ R) as (-> & _ & -> & ->).
  exists count, (printed (eval handle (write_loop this docs folderDocuments 0%nat) w)).
  simpl. rewrite app_nil_r.
  split; [exact A|]. split; [eapply attempts_successes; eauto|]. auto.
Qed.

Lemma write_failures_do_not_abort_witness :
  exists count logs,
    attempts example_converter []
      (topLevelDocuments (organizeDocuments (own_entries example_two_documents)))
      (calls (eval mem_handle
                (extractDocuments example_converter example_two_documents [])
                example_failing_disk))
      logs count
    /\ count
       = successes
           (calls (eval mem_handle
                     (extractDocuments example_converter example_two_documents [])
                     example_failing_disk))
    /\ printed (eval mem_handle
                  (extractDocuments example_converter example_two_documents [])
                  example_failing_disk)
       = logs ++ [LogExtractedDocuments count]
    /\ ended (eval mem_handle
                (extractDocuments example_converter example_two_documents [])
                example_failing_disk)
       = Returned tt.
Proof.
  apply (write_failures_do_not_abort memfs mem_handle example_converter
           example_two_documents [] example_failing_disk); reflexivity.
Defined.

(** On the example, the document whose [writeFile] fails is logged, the
    other one is written, and the count is one. *)
Example write_failure_example :
  let r := eval mem_handle
             (extractDocuments example_converter example_two_documents [])
             example_failing_disk in
  ended r = Returned tt
  /\ printed r
     = [ErrorExtractingDocument (u "!actors!a1") (FsError EIO);
        LogExtractedDocuments 1]
  /\ map fst (contents (outputDir example_converter) (final r))
     = [outputDir example_converter ++ [u "Orc.json"];
        outputDir example_converter ++ [u "Old.json"]].
Proof. vm_compute. repeat split. Qed.

(** A document whose folder path cannot be resolved makes no [fs] call and
    is logged; the next one is written, and the count is one. *)
Example unresolved_document_example :
  let r := eval mem_handle
             (extractDocuments example_converter example_odd_pair [])
             example_disk in
  ended r = Returned tt
  /\ printed r
     = [ErrorExtractingDocument (u "!actors!a1") TypeError;
        LogExtractedDocuments 1]
  /\ kinds (calls r) = [KMkdir; KWriteFile]
  /\ map fst (contents (outputDir example_converter) (final r))
     = [outputDir example_converter ++ [u "Orc.json"];
        outputDir example_converter ++ [u "Old.json"]].
Proof. vm_compute. repeat split. Qed.

(** ** The pre-clean step *)

Section PreClean.

Variable world : Type.
Variable handle : fsop -> world -> reply * world.
Variable cwd : path.

(** [deletePackFolder] by itself: an absent folder is not an error. *)
Lemma deletePackFolder_absent name w :
  existsb (str_eqb name) AVAILABLE_PACKS = true ->
  fst (handle (Access (path_join cwd [u "packsrc"; name])) w)
  = Rejected ENOENT ->
  ended (eval handle (deletePackFolder cwd name) w) = Returned tt.
Proof.
  intros V H. unfold deletePackFolder, validatePackName. rewrite V.
  cbn [negb bind try_catch await eval].
  destruct (handle (Access (path_join cwd [u "packsrc"; name])) w)
    as [r w1].
  simpl in H; subst r. reflexivity.
Qed.

(** [deletePackFolder] by itself: a deletion that fails for another reason
    rejects the promise it returns. *)
Lemma deletePackFolder_failure name w d code :
  existsb (str_eqb name) AVAILABLE_PACKS = true ->
  fst (handle (Access (path_join cwd [u "packsrc"; name])) w) = Resolved d ->
  fst (handle (Rm (path_join cwd [u "packsrc"; name]))
         (snd (handle (Access (path_join cwd [u "packsrc"; name])) w)))
  = Rejected code ->
  is_ENOENT code = false ->
  ended (eval handle (deletePackFolder cwd name) w)
  = Raised (Error (FailedToDeletePackFolder
                     (path_join cwd [u "packsrc"; name]))).
Proof.
  intros V H1 H2 C. unfold deletePackFolder, validatePackName. rewrite V.
  cbn [negb bind try_catch await eval].
  destruct (handle (Access (path_join cwd [u "packsrc"; name])) w)
    as [r w1].
  simpl in H1, H2; subst r. cbn [bind try_catch await eval].
  destruct (handle (Rm (path_join cwd [u "packsrc"; name])) w1) as [r w2].
  simpl in H2; subst r. cbn [bind try_catch eval ended].
  destruct code; try (simpl in C; discriminate C); reflexivity.
Qed.

(** [extract] does not wait for it: once the database file is found, the
    caller goes on with the deletion detached. *)
Lemma extract_detaches_deletion this dbFilePath w d :
  fst (handle (Access (match dbFilePath with
                       | Some p => p
                       | None => dbFile this
                       end)) w) = Resolved d ->
  exists others,
    detached (eval handle (extract cwd this dbFilePath) w)
    = deletePackFolder cwd (packName this) :: others.
Proof.
  intros H. unfold extract.
  cbn [bind try_catch await eval].
  destruct (handle (Access _) w) as [r w1]. simpl in H; subst r.
  cbn [bind try_catch eval detached]. eexists. reflexivity.
Qed.

End PreClean.

(** C1. Two runs of [extract] on the same source and the same disk: in the
    one the detached deletion happens first and the output directory holds
    the new file only; in the other the deletion happens after the writes and
    takes the new output away.  Both runs settle and [extract] returns in
    both. *)
Theorem extract_deletion_races_with_writes :
  let first := example_run deletion_first example_disk in
  let last := example_run deletion_last example_disk in
  settled first = true /\ settled last = true
  /\ outcome_of (main first) = Some (Returned tt)
  /\ outcome_of (main last) = Some (Returned tt)
  /\ contents (outputDir example_converter) (disk first)
     = [(outputDir example_converter ++ [u "Goblin.json"],
         File (JsonText (VObj [(u "name", VStr (u "Goblin"))])))]
  /\ contents (outputDir example_converter) (disk last) = []
  /\ lookup_node (outputDir example_converter) (disk last) = None
  /\ kinds (history first)
     = [KAccess; KAccess; KRm; KReadFile; KMkdir; KMkdir; KWriteFile]
  /\ kinds (history last)
     = [KAccess; KReadFile; KMkdir; KMkdir; KWriteFile; KAccess; KRm].
Proof. vm_compute. repeat split. Qed.

(** C2. A deletion that fails does not fail [extract]: on a disk where
    removing the output directory is refused, the rejection stays with the
    detached callee, [extract] returns, the new file is written and the file
    of the earlier run is still there. *)
Theorem extract_drops_deletion_failure :
  let c := example_run deletion_first example_undeletable_disk in
  settled c = true
  /\ outcome_of (main c) = Some (Returned tt)
  /\ unhandled_rejections c
     = [Error (FailedToDeletePackFolder (outputDir example_converter))]
  /\ map fst (contents (outputDir example_converter) (disk c))
     = [outputDir example_converter ++ [u "Goblin.json"];
        outputDir example_converter ++ [u "Old.json"]]
  /\ kinds (history c)
     = [KAccess; KAccess; KRm; KReadFile; KMkdir; KMkdir; KWriteFile].
Proof. vm_compute. repeat split. Qed.

(** ** The folder step *)

Lemma collect_folder_none entries acc :
  forallb (fun e => negb (startsWith (fst e) (u "!folders"))) entries = true ->
  fold_left collect_folder entries acc = acc.
Proof.
  revert acc; induction entries as [|[key document] rest IH]; intros acc;
    cbn [forallb fold_left fst]; [reflexivity|].
  rewrite andb_true_iff, negb_true_iff; intros [H R].
  rewrite IH by exact R. unfold collect_folder. now rewrite H.
Qed.

(** With no key that [extractFolders] collects, it makes no [fs] call: no
    [_folders.json] is created. *)
Lemma extractFolders_nothing_to_write (world : Type)
  (handle : fsop -> world -> reply * world) (this : dbConvert)
  (entries : list (jsstring * value)) (w : world) :
  forallb (fun e => negb (startsWith (fst e) (u "!folders"))) entries = true ->
  calls (eval handle (extractFolders this (VObj entries)) w) = []
  /\ ended (eval handle (extractFolders this (VObj entries)) w) = Returned [].
Proof.
  intros H. unfold extractFolders, Object_entries, own_entries. cbn [bind].
  rewrite collect_folder_none by exact H. split; reflexivity.
Qed.

(** The partition leaves out the keys with the prefix [!folders!]. *)
Lemma partition_step_folder acc key document :
  startsWith key (u "!folders!") = true ->
  partition_step acc (key, document) = acc.
Proof. intros H. unfold partition_step. now rewrite H. Qed.

(** C3. The folder step collects by the prefix [!folders], the partition
    leaves out by the prefix [!folders!]: the record at [!foldersX!a1] is
    written to [_folders.json] and is a content document with a file of its
    own as well. *)
Theorem extractFolders_prefix_differs :
  let key := u "!foldersX!a1" in
  let document := VObj [(u "name", VStr (u "Stray"))] in
  let r := eval mem_handle (extract example_cwd example_converter None)
             example_stray_disk in
  startsWith key (u "!folders!") = false
  /\ fold_left collect_folder (own_entries example_stray_store) []
     = [(key, document)]
  /\ topLevelDocuments (organizeDocuments (own_entries example_stray_store))
     = [(key, document)]
  /\ ended r = Returned tt
  /\ lookup_node (outputDir example_converter ++ [u "_folders.json"]) (final r)
     = Some (File (JsonText (VObj [(key, document)])))
  /\ lookup_node (outputDir example_converter ++ [u "Stray.json"]) (final r)
     = Some (File (JsonText document)).
Proof. vm_compute. repeat split. Qed.

(** C4. An embedded record whose parent is absent, at a key that starts
    with [!folders]: the partition files it under a parent key the store does
    not hold, so there is no content document, and yet the child's body is
    written, to [_folders.json]. *)
Theorem orphan_embedded_record_in_folders_file :
  let key := u "!foldersX.item!P1.C1" in
  let child := VObj [(u "name", VStr (u "Sword"))] in
  let r := eval mem_handle (extract example_cwd example_converter None)
             (example_disk_of example_orphan_store) in
  embedded_parent key = Some (u "!foldersX!P1")
  /\ has_key (u "!foldersX!P1") (own_entries example_orphan_store) = false
  /\ topLevelDocuments (organizeDocuments (own_entries example_orphan_store))
     = []
  /\ ended r = Returned tt
  /\ lookup_node (outputDir example_converter ++ [u "_folders.json"]) (final r)
     = Some (File (JsonText (VObj [(key, child)]))).
Proof. vm_compute. repeat split. Qed.

(** C7. A record whose key has a [.] in its type section and whose id
    section has no child half, at a key that starts with [!folders]: the
    partition drops it, and yet its body is written, to [_folders.json]. *)
Theorem incomplete_embedded_key_in_folders_file :
  let key := u "!folders.item!P1" in
  let document := VObj [(u "name", VStr (u "Lost"))] in
  let r := eval mem_handle (extract example_cwd example_converter None)
             (example_disk_of example_halved_store) in
  match_key key = Some (u "folders.item", u "P1")
  /\ includes DOT (u "folders.item") = true
  /\ lacks_half (u "P1") = true
  /\ organizeDocuments (own_entries example_halved_store)
     = {| topLevelDocuments := []; embeddedDocuments := [] |}
  /\ ended r = Returned tt
  /\ lookup_node (outputDir example_converter ++ [u "_folders.json"]) (final r)
     = Some (File (JsonText (VObj [(key, document)]))).
Proof. vm_compute. repeat split. Qed.

(** C9. A key without the prefix [!folders!] and without the shape
    [!<type section>!<id section>], which starts with [!folders]: the
    partition ignores it, and yet the record is written, to
    [_folders.json]. *)
Theorem malformed_key_in_folders_file :
  let key := u "!foldersX" in
  let document := VObj [(u "name", VStr (u "Odd"))] in
  let r := eval mem_handle (extract example_cwd example_converter None)
             (example_disk_of example_shapeless_store) in
  startsWith key (u "!folders!") = false
  /\ has_shape key = false
  /\ organizeDocuments (own_entries example_shapeless_store)
     = {| topLevelDocuments := []; embeddedDocuments := [] |}
  /\ ended r = Returned tt
  /\ lookup_node (outputDir example_converter ++ [u "_folders.json"]) (final r)
     = Some (File (JsonText (VObj [(key, document)]))).
Proof. vm_compute. repeat split. Qed.

(** ** The converter on a small pack *)

(** The deletion first, as the pre-clean is meant: the folder becomes a
    directory, the document a file in it, and the embedded item an element of
    the document's [embedded] array. *)
Example extract_nested_example :
  let c := example_run (deletion_first ++ repeat Main 4) example_nested_disk in
  settled c = true
  /\ outcome_of (main c) = Some (Returned tt)
  /\ lookup_node
       (outputDir example_converter ++ [u "Monsters"; u "Goblin.json"])
       (disk c)
     = Some (File (JsonText
                     (VObj [(u "name", VStr (u "Goblin"));
                            (u "folder", VStr (u "F1"));
                            (u "embedded",
                             VArr [VObj [(u "name", VStr (u "Club"))]])])))
  /\ map fst (contents (outputDir example_converter) (disk c))
     = [outputDir example_converter ++ [u "Monsters"; u "Goblin.json"];
        outputDir example_converter ++ [u "Monsters"];
        outputDir example_converter ++ [u "_folders.json"]].
Proof. vm_compute. repeat split. Qed.

(** The constructor accepts the four packs and nothing else. *)
Lemma new_dbConvert_checks_pack cwd name :
  (if existsb (str_eqb name) AVAILABLE_PACKS
   then exists this, new_dbConvert cwd name = Ret this /\ packName this = name
   else new_dbConvert cwd name = Throw (Error (InvalidPackName name))).
Proof.
  unfold new_dbConvert, validatePackName.
  destruct (existsb (str_eqb name) AVAILABLE_PACKS); cbn [negb bind].
  - eexists; split; reflexivity.
  - reflexivity.
Qed.

(** ** More on sanitizeFilename *)

(** X1. The name [sanitizeFilename] returns is safe as a file name on
    Windows and Linux: it holds none of the forbidden characters (so no path
    separator and no white space), no two underscores in a row, and no
    underscore at either end. *)
Theorem sanitizeFilename_filesystem_safe (v : value) :
  (forall c, In c (sanitizeFilename v) -> is_invalid c = false)
  /\ no_double (sanitizeFilename v) = true
  /\ starts_in is_underscore (sanitizeFilename v) = false
  /\ ends_in is_underscore (sanitizeFilename v) = false.
Proof.
  pose proof (sanitizeFilename_safe v) as H. unfold safe_name in H.
  rewrite !andb_true_iff, !negb_true_iff in H.
  destruct H as [[[Hv Hd] Hs] He]. repeat split; auto.
  intros c I. rewrite forallb_forall in Hv. specialize (Hv c I).
  unfold valid_char in Hv. now apply negb_true_iff in Hv.
Qed.

(** X2. The names [sanitizeFilename] leaves unchanged are exactly the
    non-empty safe ones: every other string is renamed. *)
Theorem sanitizeFilename_fixed_points (s : jsstring) :
  sanitizeFilename (VStr s) = s <-> (safe_name s = true /\ s <> []).
Proof.
  split.
  - intros E. split.
    + rewrite <- E. apply sanitizeFilename_safe.
    + intros ->. discriminate E.
  - intros [S N]. rewrite sanitizeFilename_string, sanitize_core_fixed by exact S.
    destruct s; [congruence | reflexivity].
Qed.

(** ** More on keys and on organizeDocuments *)

Lemma split_first_spec sep s :
  ~ In sep (fst (split_first sep s))
  /\ s = fst (split_first sep s)
         ++ match snd (split_first sep s) with
            | Some r => sep :: r
            | None => []
            end.
Proof.
  induction s as [|c s [IH1 IH2]]; simpl; [auto|].
  destruct (c =? sep) eqn:E.
  - apply N.eqb_eq in E; subst c. simpl; auto.
  - destruct (split_first sep s) as [a b]; simpl in *. split.
    + intros [H | H]; [|tauto]. subst c. now rewrite N.eqb_refl in E.
    + now rewrite <- IH2.
Qed.

Lemma part0_split s :
  part 0 (split DOT s) = VStr (fst (split_first DOT s)).
Proof. destruct (split_parts DOT s) as (ps & -> & _). reflexivity. Qed.

Lemma includes_false c s : ~ In c s -> includes c s = false.
Proof.
  unfold includes. induction s as [|x s IH]; simpl; [reflexivity|].
  intros H. rewrite IH by tauto. rewrite orb_false_r.
  apply N.eqb_neq. intros ->; tauto.
Qed.

Lemma not_in_prefix {A : Type} (x : A) (a b c : list A) :
  a = b ++ c -> ~ In x a -> ~ In x b.
Proof. intros -> H I. apply H, in_or_app; auto. Qed.

(** X3. An embedded record is filed under the key made of the text before
    the first [.] of its type section and the text before the first [.] of
    its id section; that key is never itself the key of an embedded record,
    so records of deeper levels are attached to the top-level document and
    not to the embedded document above them. *)
Theorem embedded_parent_is_top_parent (key typeSection idSection
  parentKey : jsstring) :
  match_key key = Some (typeSection, idSection) ->
  embedded_parent key = Some parentKey ->
  parentKey = BANG :: fst (split_first DOT typeSection)
                ++ BANG :: fst (split_first DOT idSection)
  /\ is_embedded parentKey = false.
Proof.
  intros M P.
  destruct (match_key_shape _ _ _ M) as (_ & _ & _ & NB & _).
  unfold embedded_parent in P. rewrite M in P.
  destruct (startsWith key (u "!folders!")); [discriminate|].
  destruct (includes DOT typeSection && _ && _); [|discriminate].
  unfold parentKeyOf in P. rewrite !part0_split in P. cbn [toString] in P.
  injection P as <-. split; [reflexivity|].
  set (pt := fst (split_first DOT typeSection)).
  set (pid := fst (split_first DOT idSection)).
  destruct (split_first_spec DOT typeSection) as [ND E]. fold pt in ND, E.
  assert (NBp : ~ In BANG pt) by (eapply not_in_prefix; eauto).
  unfold is_embedded, embedded_parent.
  destruct (startsWith (BANG :: pt ++ BANG :: pid) (u "!folders!"));
    [reflexivity|].
  destruct (match_key (BANG :: pt ++ BANG :: pid)) as [[t' i']|] eqn:M';
    [|reflexivity].
  assert (t' = pt) as ->.
  { unfold match_key in M'. rewrite N.eqb_refl in M'.
    rewrite (span_type_app pt pid NBp) in M'.
    destruct pt; [discriminate|]. destruct pid; [discriminate|].
    destruct (forallb _ _); [|discriminate]. now injection M' as <- <-. }
  now rewrite (includes_false DOT pt ND).
Qed.

Lemma embedded_parent_is_top_parent_witness :
  u "!actors!P1"
  = BANG :: fst (split_first DOT (u "actors.items.effects"))
      ++ BANG :: fst (split_first DOT (u "P1.C1.E1"))
  /\ is_embedded (u "!actors!P1") = false.
Proof.
  apply (embedded_parent_is_top_parent (u "!actors.items.effects!P1.C1.E1")
           (u "actors.items.effects") (u "P1.C1.E1") (u "!actors!P1"));
    reflexivity.
Defined.

Lemma has_key_get {V : Type} k (o : list (jsstring * V)) :
  has_key k o = match assoc_get k o with Some _ => true | None => false end.
Proof.
  induction o as [|[k' v] o IH]; simpl; [reflexivity|].
  destruct (str_eqb k k'); simpl; auto.
Qed.

Lemma assoc_set_absent {V : Type} k (v : V) o :
  has_key k o = false -> assoc_set k v o = o ++ [(k, v)].
Proof.
  induction o as [|[k' v'] o IH]; simpl; [reflexivity|].
  destruct (str_eqb k k'); simpl; [discriminate|].
  intros H. now rewrite IH.
Qed.

Lemma assoc_set_keys {V : Type} k (v : V) o :
  has_key k o = true -> map fst (assoc_set k v o) = map fst o.
Proof.
  induction o as [|[k' v'] o IH]; simpl; [discriminate|].
  destruct (str_eqb k k') eqn:E; simpl; [reflexivity|].
  intros H. now rewrite IH.
Qed.

Lemma attach_step_keys top group :
  map fst (attach_step top group) = map fst top.
Proof.
  destruct group as [parentKey items]. unfold attach_step.
  destruct (assoc_get parentKey top) eqn:G; [|reflexivity].
  apply assoc_set_keys. rewrite has_key_get. now rewrite G.
Qed.

Lemma fold_attach_keys groups : forall top,
  map fst (fold_left attach_step groups top) = map fst top.
Proof.
  induction groups as [|g groups IH]; intros top; simpl; [reflexivity|].
  now rewrite IH, attach_step_keys.
Qed.

Lemma fold_top_keys l : forall top,
  unique_keys l = true ->
  forallb (fun e => negb (has_key (fst e) top)) l = true ->
  map fst (fold_left top_step l top)
  = map fst top ++ filter is_top_level (map fst l).
Proof.
  induction l as [|[k d] l IH]; intros top; simpl.
  - intros _ _. now rewrite app_nil_r.
  - rewrite !andb_true_iff, !negb_true_iff. intros [N U] [H F].
    unfold top_step at 2. cbn [fst snd].
    destruct (is_top_level k).
    + rewrite assoc_set_absent by exact H. rewrite IH; [| exact U |].
      * rewrite map_app. simpl. now rewrite <- app_assoc.
      * rewrite forallb_forall in *. intros [k' d'] I. cbn [fst].
        specialize (F _ I). cbn [fst] in F. apply negb_true_iff in F.
        unfold has_key in *. rewrite existsb_app, F. simpl.
        rewrite orb_false_r. apply negb_true_iff.
        destruct (str_eqb k' k) eqn:E; [|reflexivity].
        apply str_eqb_eq in E; subst k'.
        assert (X : existsb (fun e => str_eqb k (fst e)) l = true).
        { apply existsb_exists. exists (k, d'). split; [exact I|].
          apply str_eqb_refl. }
        congruence.
    + apply IH; assumption.
Qed.

(** X4. For a store with unique keys, the top-level documents
    [organizeDocuments] returns are keyed by exactly the top-level keys of
    the store, in store order: folder records, embedded records and
    malformed keys give no entry, and nesting adds or removes none. *)
Theorem topLevelDocuments_keys (docs : list (jsstring * value)) :
  unique_keys docs = true ->
  map fst (topLevelDocuments (organizeDocuments docs))
  = filter is_top_level (map fst docs).
Proof.
  intros U. unfold organizeDocuments. cbn [topLevelDocuments].
  rewrite fold_attach_keys, fold_partition_top. cbn [topLevelDocuments].
  rewrite fold_top_keys; [reflexivity | exact U |].
  apply forallb_forall. reflexivity.
Qed.

Lemma topLevelDocuments_keys_witness :
  map fst (topLevelDocuments (organizeDocuments (own_entries example_nested_store)))
  = [u "!actors!P1"].
Proof.
  apply (topLevelDocuments_keys (own_entries example_nested_store)).
  reflexivity.
Defined.

Lemma assoc_get_push_same {V : Type} k (v : V) o :
  assoc_get k (assoc_push k v o)
  = Some (match assoc_get k o with Some vs => vs ++ [v] | None => [v] end).
Proof.
  induction o as [|[k' vs] o IH]; simpl.
  - now rewrite str_eqb_refl.
  - destruct (str_eqb k k') eqn:E; simpl; now rewrite E.
Qed.

Lemma assoc_get_push_other {V : Type} k k' (v : V) o :
  str_eqb k k' = false -> assoc_get k (assoc_push k' v o) = assoc_get k o.
Proof.
  intros N. induction o as [|[k2 vs] o IH]; simpl.
  - now rewrite N.
  - destruct (str_eqb k' k2) eqn:E; simpl.
    + apply str_eqb_eq in E; subst k2. now rewrite N.
    + now rewrite IH.
Qed.

Lemma has_key_push {V : Type} k k' (v : V) o :
  has_key k (assoc_push k' v o) = has_key k o || str_eqb k k'.
Proof.
  induction o as [|[k2 vs] o IH]; simpl.
  - now rewrite orb_false_r.
  - destruct (str_eqb k' k2) eqn:E; simpl.
    + apply str_eqb_eq in E; subst k2.
      destruct (str_eqb k k'), (has_key k o); reflexivity.
    + rewrite IH. now rewrite orb_assoc.
Qed.

Lemma unique_keys_push {V : Type} k (v : V) o :
  unique_keys o = true -> unique_keys (assoc_push k v o) = true.
Proof.
  induction o as [|[k' vs] o IH]; simpl; [reflexivity|].
  rewrite andb_true_iff, negb_true_iff. intros [N U].
  destruct (str_eqb k k') eqn:E; simpl.
  - now rewrite N, U.
  - rewrite has_key_push, N, IH by exact U. simpl.
    rewrite str_eqb_sym, E. reflexivity.
Qed.

Lemma partition_step_groups_unique acc entry :
  unique_keys (embeddedDocuments acc) = true ->
  unique_keys (embeddedDocuments (partition_step acc entry)) = true.
Proof.
  intros U. destruct entry as [key document].
  destruct (embedded_parent key) as [p|] eqn:P.
  - destruct (partition_step_embedded acc key document p P) as (item & _ & ->).
    now apply unique_keys_push.
  - rewrite partition_step_not_embedded; [exact U|].
    unfold is_embedded. cbn [fst]. now rewrite P.
Qed.

Lemma fold_partition_groups_unique l : forall acc,
  unique_keys (embeddedDocuments acc) = true ->
  unique_keys (embeddedDocuments (fold_left partition_step l acc)) = true.
Proof.
  induction l as [|e l IH]; intros acc U; simpl; [exact U|].
  now apply IH, partition_step_groups_unique.
Qed.

Lemma children_of_cons parentKey key document l :
  children_of parentKey ((key, document) :: l)
  = if filed_under parentKey key
    then document :: children_of parentKey l
    else children_of parentKey l.
Proof.
  unfold children_of. cbn [filter fst].
  destruct (filed_under parentKey key); reflexivity.
Qed.

(** The bodies filed under a parent key by the first loop: those already
    there, then those of the records gone through, in order. *)
Lemma fold_partition_group parentKey l : forall acc,
  match assoc_get parentKey (embeddedDocuments (fold_left partition_step l acc))
  with
  | Some items =>
      map item_document items
      = match assoc_get parentKey (embeddedDocuments acc) with
        | Some old => map item_document old
        | None => []
        end ++ children_of parentKey l
      /\ (assoc_get parentKey (embeddedDocuments acc) = None ->
          children_of parentKey l <> [])
  | None =>
      assoc_get parentKey (embeddedDocuments acc) = None
      /\ children_of parentKey l = []
  end.
Proof.
  induction l as [|[key document] l IH]; intros acc.
  - simpl. destruct (assoc_get parentKey (embeddedDocuments acc)).
    + split; [now rewrite app_nil_r | discriminate].
    + auto.
  - cbn [fold_left]. specialize (IH (partition_step acc (key, document))).
    rewrite children_of_cons. unfold filed_under.
    destruct (embedded_parent key) as [p|] eqn:P.
    + destruct (partition_step_embedded acc key document p P)
        as (item & Hi & E).
      rewrite E in IH.
      destruct (str_eqb p parentKey) eqn:Q.
      * apply str_eqb_eq in Q; subst p.
        rewrite assoc_get_push_same in IH.
        destruct (assoc_get parentKey
                    (embeddedDocuments (fold_left partition_step l _)));
          [|destruct IH; discriminate].
        destruct IH as [IH _]. split; [|discriminate].
        rewrite IH.
        destruct (assoc_get parentKey (embeddedDocuments acc)).
        -- rewrite map_app. cbn [map]. rewrite Hi, <- app_assoc. reflexivity.
        -- cbn [map]. rewrite Hi. reflexivity.
      * rewrite assoc_get_push_other in IH
          by (rewrite str_eqb_sym; exact Q).
        exact IH.
    + rewrite partition_step_not_embedded in IH
        by (unfold is_embedded; cbn [fst]; now rewrite P).
      exact IH.
Qed.

(** The second loop, seen from one key: the parent there, if any, receives
    the bodies of its group, if any. *)
Lemma fold_attach_get parentKey groups : forall top,
  unique_keys groups = true ->
  assoc_get parentKey (fold_left attach_step groups top)
  = match assoc_get parentKey top with
    | Some parent =>
        Some match assoc_get parentKey groups with
             | Some items =>
                 set_prop parent (u "embedded")
                   (VArr (map item_document items))
             | None => parent
             end
    | None => None
    end.
Proof.
  induction groups as [|[g items] groups IH]; intros top; simpl.
  - intros _. destruct (assoc_get parentKey top); reflexivity.
  - rewrite andb_true_iff, negb_true_iff. intros [N U].
    rewrite IH by exact U.
    destruct (str_eqb parentKey g) eqn:E.
    + apply str_eqb_eq in E; subst g.
      rewrite has_key_get in N.
      destruct (assoc_get parentKey groups); [discriminate|].
      destruct (assoc_get parentKey top) eqn:G.
      * now rewrite assoc_get_set_same.
      * now rewrite G.
    + destruct (assoc_get g top) eqn:G; [|reflexivity].
      now rewrite assoc_get_set_other by exact E.
Qed.

(** X5. For a store with unique keys, the document serialized for a
    top-level key is the copy of its record, with an [embedded] array
    holding the bodies of all the records filed under that key, in store
    order, when there is at least one, and with no change when there is
    none. *)
Theorem organizeDocuments_nesting (docs : list (jsstring * value))
  (parentKey : jsstring) (parent : value) :
  unique_keys docs = true ->
  In (parentKey, parent) docs ->
  is_top_level parentKey = true ->
  assoc_get parentKey (topLevelDocuments (organizeDocuments docs))
  = Some (with_embedded (spread parent) (children_of parentKey docs)).
Proof.
  intros U I T.
  set (empty := {| topLevelDocuments := []; embeddedDocuments := [] |}).
  unfold organizeDocuments. cbn [topLevelDocuments]. fold empty.
  rewrite fold_attach_get
    by (apply fold_partition_groups_unique; reflexivity).
  rewrite fold_partition_top. cbn [topLevelDocuments empty].
  rewrite (fold_top_present parentKey parent docs [] U I T).
  f_equal.
  pose proof (fold_partition_group parentKey docs empty) as G.
  destruct (assoc_get parentKey
              (embeddedDocuments (fold_left partition_step docs empty)))
    as [items|].
  - cbn [embeddedDocuments empty assoc_get app] in G.
    destruct G as [G N]. rewrite G. unfold with_embedded.
    destruct (children_of parentKey docs); [|reflexivity].
    now destruct N.
  - destruct G as [_ ->]. reflexivity.
Qed.

Lemma organizeDocuments_nesting_witness :
  assoc_get (u "!actors!P1")
    (topLevelDocuments (organizeDocuments (own_entries example_nested_store)))
  = Some (VObj [(u "name", VStr (u "Goblin")); (u "folder", VStr (u "F1"));
                (u "embedded", VArr [VObj [(u "name", VStr (u "Club"))]])]).
Proof.
  apply (organizeDocuments_nesting (own_entries example_nested_store)
           (u "!actors!P1")
           (VObj [(u "name", VStr (u "Goblin")); (u "folder", VStr (u "F1"))])).
  - reflexivity.
  - simpl; auto.
  - reflexivity.
Defined.

(** ** More on resolveFolderPath *)

(** X6. There is no cycle guard: when the folder references of a document
    lead into a cycle (some folder is reached again by following the
    [folder] fields from itself), [resolveFolderPath] never returns. *)
Theorem resolveFolderPath_cycle_hangs (document : value)
  (folderDocuments : list (jsstring * value)) (lead : list value)
  (d : value) (cycle : list value) (id : value) :
  chain folderDocuments (get_prop document (u "folder")) lead id ->
  chain folderDocuments id (d :: cycle) id ->
  resolveFolderPath document folderDocuments = Hang.
Proof.
  intros L C. pose proof C as (Ti & _).
  assert (T : truthy (get_prop document (u "folder")) = true).
  { destruct lead as [|x lead]; [simpl in L; now rewrite L|].
    now destruct L. }
  unfold resolveFolderPath. rewrite T. cbn [negb].
  destruct (Nat.le_gt_cases (S (List.length folderDocuments))
              (List.length lead)) as [B | B].
  - exact (walk_cut _ _ _ _ _ _ L Ti B).
  - replace (S (List.length folderDocuments))
      with (List.length lead
            + (S (List.length folderDocuments) - List.length lead))%nat by lia.
    rewrite (walk_along _ _ _ _ _ _ L).
    exact (walk_round _ _ _ _ C _ _).
Qed.

Lemma resolveFolderPath_cycle_hangs_witness :
  resolveFolderPath (VObj [(u "name", VStr (u "Goblin"));
                           (u "folder", VStr (u "A"))])
    [(u "!folders!A", VObj [(u "name", VStr (u "a")); (u "folder", VStr (u "B"))]);
     (u "!folders!B", VObj [(u "name", VStr (u "b")); (u "folder", VStr (u "A"))])]
  = Hang.
Proof.
  apply (resolveFolderPath_cycle_hangs _ _ []
           (VObj [(u "name", VStr (u "a")); (u "folder", VStr (u "B"))])
           [VObj [(u "name", VStr (u "b")); (u "folder", VStr (u "A"))]]
           (VStr (u "A"))).
  - reflexivity.
  - simpl. repeat split; reflexivity.
Defined.

(** X7. [resolveFolderPath] makes no file system call and has three
    outcomes: it never returns; or it throws a [TypeError], having printed
    nothing; or it returns, after at most one warning, a path of sanitized
    (hence non-empty and safe) folder names, no longer than the number of
    folder documents. *)
Theorem resolveFolderPath_returns (document : value)
  (folderDocuments : list (jsstring * value)) :
  resolveFolderPath document folderDocuments = Hang
  \/ resolveFolderPath document folderDocuments = Throw TypeError
  \/ exists warnings folderPath,
       resolveFolderPath document folderDocuments
       = emit warnings (Ret folderPath)
       /\ (List.length warnings <= 1)%nat
       /\ forallb safe_name folderPath = true
       /\ forallb (fun s => negb (is_empty s)) folderPath = true
       /\ (List.length folderPath <= List.length folderDocuments)%nat.
Proof.
  destruct (resolve_cases folderDocuments document)
    as [H | (hops & last & C & E & B & R)]; [left; exact H|].
  right. rewrite R. unfold walk_end.
  assert (S : forallb safe_name (rev (map sanitized_name hops)) = true).
  { apply forallb_forall. intros s I. apply in_rev, in_map_iff in I.
    destruct I as (x & <- & _). apply sanitizeFilename_safe. }
  assert (N : forallb (fun s => negb (is_empty s))
                (rev (map sanitized_name hops)) = true).
  { apply forallb_forall. intros s I. apply in_rev, in_map_iff in I.
    destruct I as (x & <- & _). unfold sanitized_name.
    now rewrite sanitizeFilename_nonempty. }
  assert (L : (List.length (rev (map sanitized_name hops))
               <= List.length folderDocuments)%nat)
    by now rewrite length_rev, length_map.
  destruct (truthy last); [destruct (folderKeyOf last) as [k|]|].
  - right. exists [WarnFolderReferenceNotFound k],
             (rev (map sanitized_name hops)).
    split; [reflexivity|]. split; [simpl; lia|]. auto.
  - left. reflexivity.
  - right. exists [], (rev (map sanitized_name hops)).
    split; [reflexivity|]. split; [simpl; lia|]. auto.
Qed.

(** ** Where documents are written *)

Lemma normalize_plain segs : forall seen,
  forallb (fun s => negb (str_eqb s (u ".."))) segs = true ->
  normalize seen segs = rev seen ++ filter plain_segment segs.
Proof.
  induction segs as [|s segs IH]; intros seen; simpl.
  - intros _. now rewrite app_nil_r.
  - rewrite andb_true_iff. intros [D R]. unfold plain_segment at 1.
    rewrite D, andb_true_r.
    destruct (is_empty s || str_eqb s (u ".")) eqn:E.
    + apply orb_true_iff in E. rewrite IH by exact R.
      destruct E as [-> | ->]; [reflexivity | now rewrite andb_false_r].
    + apply orb_false_iff in E. destruct E as [-> ->].
      apply negb_true_iff in D. rewrite D. rewrite IH by exact R.
      simpl. now rewrite <- app_assoc.
Qed.

Lemma normalize_is_plain segs : forall seen,
  forallb plain_segment seen = true ->
  forallb plain_segment (normalize seen segs) = true.
Proof.
  induction segs as [|s segs IH]; intros seen P; simpl.
  - rewrite forallb_forall in *. intros s I. apply P. now apply in_rev.
  - destruct (is_empty s || str_eqb s (u ".")) eqn:E; [now apply IH|].
    destruct (str_eqb s (u "..")) eqn:D.
    + apply IH. destruct seen; simpl in *; [reflexivity|].
      apply andb_true_iff in P; tauto.
    + apply IH. simpl. rewrite P, andb_true_r. unfold plain_segment.
      apply orb_false_iff in E. destruct E as [-> ->]. now rewrite D.
Qed.

Lemma plain_not_dotdot l :
  forallb plain_segment l = true ->
  forallb (fun s => negb (str_eqb s (u ".."))) l = true.
Proof.
  intros H. rewrite forallb_forall in *. intros s I.
  specialize (H s I). unfold plain_segment in H.
  apply andb_true_iff in H; tauto.
Qed.

Lemma filter_all {A : Type} (f : A -> bool) l :
  forallb f l = true -> filter f l = l.
Proof.
  induction l as [|x l IH]; simpl; [reflexivity|].
  rewrite andb_true_iff. intros [-> H]. now rewrite IH.
Qed.

(** Joining segments free of [..] to a plain path appends the ones that are
    neither empty nor [.]. *)
Lemma path_join_plain base segs :
  forallb plain_segment base = true ->
  forallb (fun s => negb (str_eqb s (u ".."))) segs = true ->
  path_join base segs = base ++ filter plain_segment segs.
Proof.
  intros B S. unfold path_join. rewrite normalize_plain.
  - simpl. rewrite filter_app. now rewrite (filter_all _ base B).
  - rewrite forallb_app, S, andb_true_r. now apply plain_not_dotdot.
Qed.

Lemma is_under_app p q : is_under p (p ++ q) = true.
Proof. induction p; simpl; [reflexivity | now rewrite str_eqb_refl]. Qed.

Lemma json_name_plain v :
  plain_segment (sanitizeFilename v ++ u ".json") = true.
Proof.
  pose proof (sanitizeFilename_nonempty v) as N.
  destruct (sanitizeFilename v) as [|a [|b [|c r]]]; try discriminate;
    unfold plain_segment; simpl;
    repeat match goal with
           | |- context [?x =? ?y] => destruct (x =? y)
           end; reflexivity.
Qed.

Lemma assoc_get_entry {V : Type} k (o : list (jsstring * V)) v :
  assoc_get k o = Some v -> In (k, v) o.
Proof.
  induction o as [|[k' v'] o IH]; simpl; [discriminate|].
  destruct (str_eqb k k') eqn:E; [|auto].
  apply str_eqb_eq in E; subst k'. intros H; injection H as ->. auto.
Qed.

Lemma chain_hops_found folderDocuments hops : forall id last,
  chain folderDocuments id hops last ->
  forall d, In d hops -> exists k, In (k, d) folderDocuments.
Proof.
  induction hops as [|x rest IH]; intros id last C d I; [destruct I|].
  destruct C as (_ & G & _ & C). destruct I as [<- | I].
  - destruct (folder_found_key _ _ _ G) as (k & _ & A).
    exists k. now apply assoc_get_entry.
  - eapply IH; eauto.
Qed.

Lemma write_calls_under (world : Type) (handle : fsop -> world -> reply * world)
  (out dir file : path) (document : value) (w : world) :
  is_under out dir = true -> is_under out file = true ->
  forall o r,
    In (o, r)
      (calls (eval handle
                (await (Mkdir dir) ;; await (WriteFile file document) ;; Ret tt)
                w)) ->
    is_under out (snd (kind_of o)) = true.
Proof.
  intros D F o r. cbn [bind await eval calls].
  destruct (handle (Mkdir dir) w) as [[x|c] w1]; cbn [bind await eval calls].
  - destruct (handle (WriteFile file document) w1) as [[y|c'] w2];
      cbn [bind eval calls In];
      intros [E | [E | []]]; injection E as <- <-; assumption.
  - cbn [In]. intros [E | []]. injection E as <- <-. assumption.
Qed.

(** X8. A converter built by the constructor writes a document inside its
    output directory: whatever [fs] does, every call made for the document
    (the [mkdir] and the [writeFile]) is on a path in or below
    [packsrc/<pack>], provided no folder document has a name that sanitizes
    to [..] (such a name is kept by [sanitizeFilename] and makes
    [path.join] step out of the directory). *)
Theorem document_written_inside_outputDir (world : Type)
  (handle : fsop -> world -> reply * world) (cwd : path) (name : jsstring)
  (this : dbConvert) (document : value)
  (folderDocuments : list (jsstring * value)) (w : world) :
  new_dbConvert cwd name = Ret this ->
  forallb (fun e => negb (str_eqb (sanitized_name (snd e)) (u "..")))
    folderDocuments = true ->
  forall o r,
    In (o, r)
      (calls (eval handle (write_document this document folderDocuments) w)) ->
    is_under (outputDir this) (snd (kind_of o)) = true.
Proof.
  intros B F.
  assert (P : forallb plain_segment (outputDir this) = true).
  { unfold new_dbConvert, validatePackName in B.
    destruct (negb (existsb (str_eqb name) AVAILABLE_PACKS)); [discriminate|].
    cbn [bind] in B. injection B as <-. cbn [outputDir].
    unfold getPackPaths, path_join. cbn [snd].
    now apply normalize_is_plain. }
  unfold write_document.
  destruct (resolve_cases folderDocuments document)
    as [H | (hops & last & C & _ & _ & R)].
  - rewrite H. cbn [bind eval calls]. intros o r [].
  - assert (W : exists warnings,
               walk_end last (Ret (rev (map sanitized_name hops)))
               = Throw TypeError
               \/ walk_end last (Ret (rev (map sanitized_name hops)))
                  = emit warnings (Ret (rev (map sanitized_name hops)))).
    { unfold walk_end.
      destruct (truthy last); [destruct (folderKeyOf last) as [k|]|].
      + exists [WarnFolderReferenceNotFound k]. right. reflexivity.
      + exists []. left. reflexivity.
      + exists []. right. reflexivity. }
    destruct W as (warnings & [W | W]); rewrite R, W;
      [cbn [bind eval calls]; intros o r []|].
    rewrite bind_emit. cbn [bind].
    set (folderPath := rev (map sanitized_name hops)).
    assert (D : forallb (fun s => negb (str_eqb s (u ".."))) folderPath = true).
    { apply forallb_forall. intros s I. apply in_rev, in_map_iff in I.
      destruct I as (d & <- & I).
      destruct (chain_hops_found _ _ _ _ C d I) as (k & K).
      rewrite forallb_forall in F. exact (F _ K). }
    intros o r.
    match goal with
    | |- In _ (calls (eval handle (emit warnings ?k) w)) -> _ =>
        destruct (eval_emit world handle warnings k w) as (_ & _ & _ & ->)
    end.
    apply write_calls_under.
    + rewrite (path_join_plain _ _ P D). apply is_under_app.
    + rewrite (path_join_plain _ _ P D).
      set (dir := outputDir this ++ filter plain_segment folderPath).
      assert (Pd : forallb plain_segment dir = true).
      { unfold dir. rewrite forallb_app, P. simpl.
        apply forallb_forall. intros s I. now apply filter_In in I. }
      pose proof (json_name_plain (get_prop document (u "name"))) as J.
      rewrite (path_join_plain dir _ Pd)
        by (simpl; unfold plain_segment in J; apply andb_true_iff in J;
            destruct J as [_ ->]; reflexivity).
      unfold dir. rewrite <- app_assoc. apply is_under_app.
Qed.

Lemma document_written_inside_outputDir_witness :
  is_under (outputDir example_converter)
    (outputDir example_converter ++ [u "Monsters"]) = true.
Proof.
  apply (document_written_inside_outputDir memfs mem_handle example_cwd
           (u "actors") example_converter
           (VObj [(u "name", VStr (u "Goblin")); (u "folder", VStr (u "F1"))])
           [(u "!folders!F1",
             VObj [(u "name", VStr (u "Monsters")); (u "folder", VNull)])]
           example_nested_disk eq_refl eq_refl
           (Mkdir (outputDir example_converter ++ [u "Monsters"]))
           (Resolved None)).
  vm_compute. left. reflexivity.
Defined.

(** A folder named [..] takes the document out of the output directory. *)
Example folder_named_dotdot_escapes :
  map (fun c => snd (kind_of (fst c)))
    (calls (eval mem_handle
              (write_document example_converter
                 (VObj [(u "name", VStr (u "Goblin"));
                        (u "folder", VStr (u "F1"))])
                 [(u "!folders!F1",
                   VObj [(u "name", VStr (u "..")); (u "folder", VNull)])])
              example_nested_disk))
  = [[u "work"; u "packsrc"]; [u "work"; u "packsrc"; u "Goblin.json"]].
Proof. vm_compute. reflexivity. Qed.

(** ** More on extractFolders *)

Lemma fold_collect l : forall acc,
  unique_keys l = true ->
  forallb (fun e => negb (has_key (fst e) acc)) l = true ->
  fold_left collect_folder l acc = acc ++ filter collected l.
Proof.
  induction l as [|[k d] l IH]; intros acc;
    cbn [fold_left filter unique_keys forallb fst].
  - intros _ _. now rewrite app_nil_r.
  - rewrite !andb_true_iff, !negb_true_iff. intros [N U] [H F].
    unfold collect_folder at 2. unfold collected at 1. cbn [fst].
    destruct (startsWith k (u "!folders")).
    + rewrite assoc_set_absent by exact H. rewrite IH; [| exact U |].
      * now rewrite <- app_assoc.
      * rewrite forallb_forall in *. intros [k' d'] I. cbn [fst].
        specialize (F _ I). cbn [fst] in F. apply negb_true_iff in F.
        unfold has_key in *. rewrite existsb_app, F. simpl.
        rewrite orb_false_r. apply negb_true_iff.
        destruct (str_eqb k' k) eqn:E; [|reflexivity].
        apply str_eqb_eq in E; subst k'.
        assert (X : existsb (fun e => str_eqb k (fst e)) l = true).
        { apply existsb_exists. exists (k, d'). split; [exact I|].
          apply str_eqb_refl. }
        congruence.
    + apply IH; assumption.
Qed.

Lemma collect_is_filter l :
  unique_keys l = true -> fold_left collect_folder l [] = filter collected l.
Proof.
  intros U. rewrite fold_collect; [reflexivity | exact U |].
  apply forallb_forall. reflexivity.
Qed.

(** X9. For a store with unique keys, [extractFolders] collects the records
    whose key starts with [!folders], unchanged and in store order.  With
    none it makes no [fs] call and returns the empty mapping; otherwise it
    makes exactly one call, the [writeFile] of the whole mapping to
    [_folders.json] in the output directory, and a rejection of that call
    is not caught: it is raised to the caller. *)
Theorem extractFolders_writes_once (world : Type)
  (handle : fsop -> world -> reply * world) (this : dbConvert)
  (entries : list (jsstring * value)) (w : world) :
  unique_keys entries = true ->
  let folders := filter collected entries in
  let file := path_join (outputDir this) [u "_folders.json"] in
  let r := eval handle (extractFolders this (VObj entries)) w in
  match folders with
  | [] => calls r = [] /\ ended r = Returned []
  | _ =>
      calls r = [(WriteFile file (VObj folders),
                  fst (handle (WriteFile file (VObj folders)) w))]
      /\ ended r
         = match fst (handle (WriteFile file (VObj folders)) w) with
           | Resolved _ => Returned folders
           | Rejected code => Raised (FsError code)
           end
  end.
Proof.
  intros U folders file r. subst r.
  unfold extractFolders, Object_entries, own_entries. cbn [bind].
  rewrite (collect_is_filter entries U). fold folders.
  destruct folders as [|f fs]; [split; reflexivity|].
  cbn [List.length Nat.ltb Nat.leb bind await eval]. fold file.
  destruct (handle (WriteFile file (VObj (f :: fs))) w) as [[d|code] w1];
    split; reflexivity.
Qed.

Lemma extractFolders_writes_once_witness :
  calls (eval mem_handle
           (extractFolders example_converter example_nested_store)
           example_nested_disk)
  = [(WriteFile (outputDir example_converter ++ [u "_folders.json"])
        (VObj [(u "!folders!F1",
                VObj [(u "name", VStr (u "Monsters")); (u "folder", VNull)])]),
      Resolved None)].
Proof.
  exact (proj1 (extractFolders_writes_once memfs mem_handle example_converter
                  (own_entries example_nested_store) example_nested_disk
                  eq_refl)).
Defined.

Lemma assoc_get_filter {V : Type} (p : jsstring -> bool) k
  (o : list (jsstring * V)) :
  p k = true -> assoc_get k (filter (fun e => p (fst e)) o) = assoc_get k o.
Proof.
  intros H. induction o as [|[k' v] o IH]; simpl; [reflexivity|].
  destruct (str_eqb k k') eqn:E.
  - apply str_eqb_eq in E; subst k'. rewrite H. simpl.
    now rewrite str_eqb_refl.
  - destruct (p k'); simpl; [now rewrite E | exact IH].
Qed.

(** X10. For a store with unique keys, the folder mapping that
    [extractFolders] hands to [resolveFolderPath] answers a folder id with
    the record the store holds at [!folders!<id>], and with nothing when the
    store has none. *)
Theorem collected_folders_lookup (entries : list (jsstring * value))
  (id : value) :
  unique_keys entries = true ->
  folder_lookup (fold_left collect_folder entries []) id
  = folder_lookup entries id.
Proof.
  intros U. unfold folder_lookup, folderKeyOf.
  destruct (toString id) as [s|]; [|reflexivity].
  unfold folder_at. rewrite (collect_is_filter entries U).
  unfold collected.
  rewrite (assoc_get_filter (fun k => startsWith k (u "!folders")));
    [reflexivity|].
  change (u "!folders!") with (u "!folders" ++ [BANG]).
  rewrite <- app_assoc. apply startsWith_app.
Qed.

Lemma collected_folders_lookup_witness :
  folder_lookup
    (fold_left collect_folder (own_entries example_nested_store) [])
    (VStr (u "F1"))
  = Some (VObj [(u "name", VStr (u "Monsters")); (u "folder", VNull)]).
Proof.
  exact (collected_folders_lookup (own_entries example_nested_store)
           (VStr (u "F1")) eq_refl).
Defined.

(** ** More on the pre-clean and on extract *)


Section ExtractErrors.

Variable world : Type.
Variable handle : fsop -> world -> reply * world.
Variable cwd : path.
Variable this : dbConvert.
Variable dbFilePath : option path.

Local Notation "'db'" := (database_of this dbFilePath).

(** X12. When the database file cannot be accessed, for whatever reason,
    [extract] rejects with "Database file not found" after that single
    call: nothing is read, created or written, and the deletion of the
    output directory is not even started. *)
Theorem extract_without_database (w : world) (code : errcode) :
  fst (handle (Access db) w) = Rejected code ->
  let r := eval handle (extract cwd this dbFilePath) w in
  ended r = Raised (Error (DatabaseFileNotFound db))
  /\ calls r = [(Access db, Rejected code)]
  /\ detached r = []
  /\ printed r = [].
Proof.
  intros H r. subst r. unfold extract. fold (database_of this dbFilePath).
  cbn [bind try_catch await eval].
  destruct (handle (Access db) w) as [x w1]. simpl in H; subst x.
  cbn [bind try_catch eval ended calls detached printed]. auto.
Qed.

(** X13. When the database file is there but cannot be read or is not
    JSON, [extract] rejects (with the [fs] error or a [SyntaxError]) having
    created nothing; yet the deletion of the output directory has already
    been started. *)
Theorem extract_with_unreadable_database (w : world) (d : option filedata) :
  fst (handle (Access db) w) = Resolved d ->
  let w1 := snd (handle (Access db) w) in
  let r := eval handle (extract cwd this dbFilePath) w in
  match fst (handle (ReadFile db) w1) with
  | Resolved (Some (JsonText _)) => True
  | answer =>
      ended r = match answer with
                | Rejected code => Raised (FsError code)
                | _ => Raised SyntaxError
                end
      /\ calls r = [(Access db, Resolved d); (ReadFile db, answer)]
      /\ detached r = [deletePackFolder cwd (packName this)]
  end.
Proof.
  intros H w1 r. subst r w1. unfold extract.
  fold (database_of this dbFilePath).
  cbn [bind try_catch await eval].
  destruct (handle (Access db) w) as [x w1]. simpl in H; subst x.
  cbn [bind try_catch await eval ended calls detached snd].
  destruct (handle (ReadFile db) w1) as [[[[v|]|]|code] w2];
    cbn [fst bind await JSON_parse eval ended calls detached]; auto.
Qed.

(** X14. When the output directory cannot be created, [extract] rejects
    with "Failed to create output directory", whatever the [fs] error was,
    and no file is written. *)
Theorem extract_without_output_directory (w : world) (d : option filedata)
  (v : value) (code : errcode) :
  fst (handle (Access db) w) = Resolved d ->
  fst (handle (ReadFile db) (snd (handle (Access db) w)))
  = Resolved (Some (JsonText v)) ->
  fst (handle (Mkdir (outputDir this))
         (snd (handle (ReadFile db) (snd (handle (Access db) w)))))
  = Rejected code ->
  let r := eval handle (extract cwd this dbFilePath) w in
  ended r = Raised (Error (FailedToCreateOutputDirectory (outputDir this)))
  /\ calls r = [(Access db, Resolved d);
                (ReadFile db, Resolved (Some (JsonText v)));
                (Mkdir (outputDir this), Rejected code)].
Proof.
  intros H1 H2 H3 r. subst r. unfold extract.
  fold (database_of this dbFilePath).
  cbn [bind try_catch await eval].
  destruct (handle (Access db) w) as [x w1].
  simpl in H1, H2, H3; subst x.
  cbn [bind try_catch await eval ended calls].
  destruct (handle (ReadFile db) w1) as [y w2].
  simpl in H2, H3; subst y.
  cbn [bind await JSON_parse eval ended calls].
  unfold ensureDirectoryStructure. cbn [bind try_catch await eval].
  destruct (handle (Mkdir (outputDir this)) w2) as [z w3].
  simpl in H3; subst z.
  cbn [bind try_catch eval ended calls]. auto.
Qed.

End ExtractErrors.

Lemma extract_without_database_witness :
  ended (eval mem_handle (extract example_cwd example_converter None)
           example_empty_disk)
  = Raised (Error (DatabaseFileNotFound (dbFile example_converter))).
Proof.
  exact (proj1 (extract_without_database memfs mem_handle example_cwd
                  example_converter None example_empty_disk ENOENT eq_refl)).
Defined.

Lemma extract_with_unreadable_database_witness :
  ended (eval mem_handle (extract example_cwd example_converter None)
           example_corrupt_disk)
  = Raised SyntaxError
  /\ detached (eval mem_handle (extract example_cwd example_converter None)
                example_corrupt_disk)
     = [deletePackFolder example_cwd (u "actors")].
Proof.
  pose proof (extract_with_unreadable_database memfs mem_handle example_cwd
                example_converter None example_corrupt_disk None eq_refl) as H.
  split; [exact (proj1 H) | exact (proj2 (proj2 H))].
Defined.

Lemma extract_without_output_directory_witness :
  ended (eval mem_handle (extract example_cwd example_converter None)
           example_readonly_disk)
  = Raised (Error (FailedToCreateOutputDirectory
                     (outputDir example_converter))).
Proof.
  exact (proj1 (extract_without_output_directory memfs mem_handle example_cwd
                  example_converter None example_readonly_disk None
                  example_store EACCES eq_refl eq_refl eq_refl)).
Defined.

(** ** What extract may touch *)

Lemma only_ops_bind P {A B : Type} (p : prog A) (f : A -> prog B) :
  only_ops P p -> (forall a, only_ops P (f a)) -> only_ops P (bind p f).
Proof.
  intros H F. induction p as [A a|A e|A|A o k IH|A l k IH|A t _ k IH];
    simpl in *; auto.
  - destruct H as [Ho Hk]. split; auto.
  - destruct H as [Ht Hk]. split; auto.
Qed.

Lemma only_ops_try_catch P {A : Type} (p : prog A) (h : exn -> prog A) :
  only_ops P p -> (forall e, only_ops P (h e)) -> only_ops P (try_catch p h).
Proof.
  intros H F. induction p as [A a|A e|A|A o k IH|A l k IH|A t _ k IH];
    simpl in *; auto.
  - destruct H as [Ho Hk]. split; auto.
  - destruct H as [Ht Hk]. split; auto.
Qed.

Lemma only_ops_await (P : fsop -> Prop) o : P o -> only_ops P (await o).
Proof. intros H. split; [exact H|]. intros [d|c]; exact I. Qed.

Lemma only_ops_walk P fuel folderDocuments : forall id acc,
  only_ops P (walk_folders fuel folderDocuments id acc).
Proof.
  induction fuel as [|fuel IH]; intros id acc; simpl.
  - destruct (truthy id); exact I.
  - destruct (truthy id); [|exact I].
    destruct (toString id); [|exact I].
    destruct (negb (truthy _)); [exact I | apply IH].
Qed.

Lemma only_ops_resolve P document folderDocuments :
  only_ops P (resolveFolderPath document folderDocuments).
Proof.
  unfold resolveFolderPath.
  destruct (negb (truthy _)); [exact I | apply only_ops_walk].
Qed.

Lemma only_ops_write_loop (P : fsop -> Prop) this folderDocuments docs :
  (forall p, P (Mkdir p)) -> (forall p v, P (WriteFile p v)) ->
  forall n, only_ops P (write_loop this docs folderDocuments n).
Proof.
  intros M W. induction docs as [|[key document] rest IH]; intros n;
    [exact I|].
  cbn [write_loop]. apply only_ops_bind; [|intros a; apply IH].
  apply only_ops_try_catch; [|intros e; exact I].
  apply only_ops_bind; [|intros a; exact I].
  unfold write_document. apply only_ops_bind; [apply only_ops_resolve|].
  intros folderPath. apply only_ops_bind; [apply only_ops_await, M|].
  intros _. apply only_ops_bind; [apply only_ops_await, W | intros _; exact I].
Qed.

Lemma only_ops_extract cwd this dbFilePath :
  only_ops (extract_op (database_of this dbFilePath)
              (path_join cwd [u "packsrc"; packName this]))
    (extract cwd this dbFilePath).
Proof.
  set (P := extract_op _ _).
  assert (M : forall p, P (Mkdir p)) by (intros; exact I).
  assert (W : forall p v, P (WriteFile p v)) by (intros; exact I).
  unfold extract. fold (database_of this dbFilePath).
  apply only_ops_bind.
  - apply only_ops_try_catch; [|intros e; exact I].
    apply only_ops_bind; [|intros a; exact I].
    apply only_ops_await. left; reflexivity.
  - intros _. split.
    + unfold deletePackFolder. apply only_ops_bind.
      * unfold validatePackName. destruct (negb _); exact I.
      * intros _. apply only_ops_try_catch.
        -- apply only_ops_bind; [apply only_ops_await; right; reflexivity|].
           intros _. apply only_ops_bind;
             [apply only_ops_await; reflexivity | intros _; exact I].
        -- intros [[]| | |]; exact I.
    + apply only_ops_bind; [apply only_ops_await; reflexivity|].
      intros dbContent. apply only_ops_bind.
      { unfold JSON_parse. destruct dbContent as [[v|]|]; exact I. }
      intros documents. apply only_ops_bind.
      { unfold ensureDirectoryStructure. apply only_ops_try_catch;
          [|intros e; exact I].
        apply only_ops_bind; [apply only_ops_await, M | intros _; exact I]. }
      intros _. apply only_ops_bind.
      { unfold extractFolders. apply only_ops_bind.
        - unfold Object_entries. destruct documents; exact I.
        - intros entries. apply only_ops_bind; [|intros _; exact I].
          destruct (_ <? _)%nat; [|exact I].
          apply only_ops_bind; [apply only_ops_await, W | intros _; exact I]. }
      intros folderDocuments. apply only_ops_bind; [|intros _; exact I].
      unfold extractDocuments. apply only_ops_bind.
      * unfold Object_entries. destruct documents; exact I.
      * intros entries. apply only_ops_bind; [|intros n; exact I].
        now apply only_ops_write_loop.
Qed.

Section Schedules.

Variable world : Type.
Variable handle : fsop -> world -> reply * world.
Variable P : fsop -> Prop.

Lemma step_confined {A : Type} (p : prog A) (w : world) :
  only_ops P p ->
  only_ops P (next (step handle p w))
  /\ Forall (fun t => only_ops P t) (spawned (step handle p w))
  /\ Forall (fun c => P (fst c)) (call (step handle p w)).
Proof.
  destruct p as [a|e| |o k|l k|t k]; simpl; intros H; auto.
  - destruct H as [Ho Hk]. destruct (handle o w) as [r w1]. simpl.
    repeat split; auto.
  - destruct H as [Ht Hk]. repeat split; auto.
Qed.

Lemma replace_nth_Forall {T : Type} (Q : T -> Prop) i x l :
  Q x -> Forall Q l -> Forall Q (replace_nth i x l).
Proof.
  intros Hx H. revert i. induction H as [|y l Hy Hl IH]; intros i; simpl.
  - destruct i; constructor.
  - destruct i; constructor; auto.
Qed.

Lemma tick_confined {A : Type} (c : config world A) who :
  confined P c -> confined P (tick handle c who).
Proof.
  intros (Hm & Ht & Hh). destruct who as [|i]; unfold tick, confined.
  - destruct (step_confined (main c) (disk c) Hm) as (N & S & C).
    cbn [main tasks history]. repeat split; auto.
    + apply Forall_app; auto.
    + apply Forall_app; auto.
  - destruct (nth_error (tasks c) i) as [t|] eqn:E; [|repeat split; auto].
    assert (Q : only_ops P t).
    { rewrite Forall_forall in Ht. apply Ht. eapply nth_error_In; eauto. }
    destruct (step_confined t (disk c) Q) as (N & S & C).
    cbn [main tasks history]. repeat split; auto.
    + apply Forall_app; split; auto. now apply replace_nth_Forall.
    + apply Forall_app; auto.
Qed.

Lemma run_confined {A : Type} schedule : forall c : config world A,
  confined P c -> confined P (run_schedule handle schedule c).
Proof.
  unfold run_schedule.
  induction schedule as [|who schedule IH]; intros c H; simpl; [exact H|].
  apply IH. now apply tick_confined.
Qed.

End Schedules.

(** X15. Whatever [fs] does and in whatever order the caller and the
    detached deletion take their steps, [extract] removes nothing but the
    output directory of its pack, reads nothing but the database file, and
    probes only these two; all its other calls create directories or write
    files. *)
Theorem extract_removes_only_pack_folder (world : Type)
  (handle : fsop -> world -> reply * world) (cwd : path) (this : dbConvert)
  (dbFilePath : option path) (schedule : list pick) (w : world) :
  Forall
    (fun c => extract_op (database_of this dbFilePath)
                (path_join cwd [u "packsrc"; packName this]) (fst c))
    (history (run_schedule handle schedule
                (start (extract cwd this dbFilePath) w))).
Proof.
  set (P := extract_op _ _).
  assert (H : confined P (start (extract cwd this dbFilePath) w)).
  { unfold confined, start. cbn [main tasks history].
    split; [apply only_ops_extract|]. split; constructor. }
  destruct (run_confined world handle P schedule _ H) as (_ & _ & R).
  exact R.
Qed.

(** ** The command line *)

(** Induction for a loop that goes on from the next argument or from the
    one after. *)
Lemma list_ind2 {A : Type} (P : list A -> Prop) :
  P [] ->
  (forall a l, P l -> P (tl l) -> P (a :: l)) ->
  forall l, P l.
Proof.
  intros N C l.
  assert (H : P l /\ P (tl l)); [|tauto].
  induction l as [|a l [IH1 IH2]]; simpl; auto.
Qed.

Lemma flag_shape arg :
  startsWith arg (u "--") = true -> arg = u "--" ++ skipn 2 arg.
Proof.
  intros H. destruct (startsWith_inv _ _ H) as [r ->]. reflexivity.
Qed.

Lemma set_option_get_other k key v options :
  key <> k -> assoc_get k (set_option key v options) = assoc_get k options.
Proof.
  intros N. unfold set_option. destruct (str_eqb key (u "__proto__"));
    [reflexivity|].
  apply assoc_get_set_other. apply str_eqb_neq. congruence.
Qed.

Lemma set_option_get_same k v options :
  str_eqb k (u "__proto__") = false ->
  assoc_get k (set_option k v options) = Some v.
Proof.
  intros N. unfold set_option. rewrite N. apply assoc_get_set_same.
Qed.

Lemma parse_from_step arg rest options :
  parse_from (arg :: rest) options
  = if startsWith arg (u "--") then
      match rest with
      | value :: rest' =>
          if negb (is_empty value) && negb (startsWith value (u "--"))
          then parse_from rest' (set_option (skipn 2 arg) (VStr value) options)
          else parse_from rest (set_option (skipn 2 arg) (VBool true) options)
      | [] => set_option (skipn 2 arg) (VBool true) options
      end
    else parse_from rest options.
Proof. reflexivity. Qed.

(** Arguments that are not the flag of [k] leave the option [k] alone. *)
Lemma parse_from_other k args : forall options,
  ~ In (u "--" ++ k) args ->
  assoc_get k (parse_from args options) = assoc_get k options.
Proof.
  induction args as [|arg rest IH1 IH2] using list_ind2; intros options N;
    [reflexivity|].
  assert (N1 : ~ In (u "--" ++ k) rest) by (intros I; apply N; now right).
  rewrite parse_from_step.
  destruct (startsWith arg (u "--")) eqn:F; [|now apply IH1].
  assert (K : skipn 2 arg <> k).
  { intros <-. apply N. left. now apply flag_shape. }
  destruct rest as [|value rest']; [now apply set_option_get_other|].
  destruct (negb (is_empty value) && negb (startsWith value (u "--"))).
  - cbn [tl] in IH2. rewrite IH2; [now apply set_option_get_other|].
    intros I; apply N1; now right.
  - rewrite IH1 by exact N1. now apply set_option_get_other.
Qed.

(** A flag is never taken as the value of the flag before it: the loop
    comes to it as an argument. *)
Lemma parse_from_reaches flag rest before : forall options,
  startsWith flag (u "--") = true ->
  exists options',
    parse_from (before ++ flag :: rest) options
    = parse_from (flag :: rest) options'.
Proof.
  induction before as [|arg before IH1 IH2] using list_ind2;
    intros options F; [exists options; reflexivity|].
  cbn [app]. rewrite parse_from_step.
  destruct (startsWith arg (u "--")) eqn:A; [|now apply IH1].
  destruct before as [|value before'].
  - cbn [app]. cbv iota beta. rewrite F, andb_false_r. eexists; reflexivity.
  - cbn [app]. cbv iota beta.
    destruct (negb (is_empty value) && negb (startsWith value (u "--"))).
    + cbn [tl] in IH2. now apply IH2.
    + now apply (IH1 _ F).
Qed.

Lemma parse_from_values args : forall options,
  forallb (fun e => option_value (snd e)) options = true ->
  forallb (fun e => option_value (snd e)) (parse_from args options) = true.
Proof.
  assert (S : forall key v options,
             option_value v = true ->
             forallb (fun e => option_value (snd e)) options = true ->
             forallb (fun e => option_value (snd e))
               (set_option key v options) = true).
  { intros key v options V H. unfold set_option.
    destruct (str_eqb key (u "__proto__")); [exact H|].
    induction options as [|[k' v'] o IH]; simpl in *.
    - now rewrite V.
    - apply andb_true_iff in H. destruct H as [H1 H2].
      destruct (str_eqb key k'); simpl; [now rewrite V, H2|].
      now rewrite H1, IH. }
  induction args as [|arg rest IH1 IH2] using list_ind2; intros options H;
    [exact H|].
  rewrite parse_from_step.
  destruct (startsWith arg (u "--")); [|now apply IH1].
  destruct rest as [|value rest']; [now apply S|].
  destruct (negb (is_empty value) && negb (startsWith value (u "--"))) eqn:V.
  - cbn [tl] in IH2. apply IH2. now apply S.
  - apply IH1. now apply S.
Qed.

(** X16. Every option [parseArgs] stores is either [true] or a non-empty
    string that does not start with [--]: no option is ever empty, and a
    flag is never stored as the value of another flag. *)
Theorem parseArgs_option_values (args : list jsstring) :
  forallb (fun e => option_value (snd e)) (parseArgs args) = true.
Proof. unfold parseArgs. now apply parse_from_values. Qed.

Lemma parse_from_flag_value (k given : jsstring) (before after : list jsstring)
  (options : list (jsstring * value)) :
  str_eqb k (u "__proto__") = false ->
  is_empty given = false ->
  startsWith given (u "--") = false ->
  ~ In (u "--" ++ k) after ->
  assoc_get k (parse_from (before ++ (u "--" ++ k) :: given :: after) options)
  = Some (VStr given).
Proof.
  intros K E D N.
  destruct (parse_from_reaches (u "--" ++ k) (given :: after) before options
              (startsWith_app (u "--") k)) as [options' H].
  unfold jsstring in *. rewrite H.
  rewrite parse_from_step, (startsWith_app (u "--") k), E, D. cbn [negb andb].
  rewrite parse_from_other by exact N.
  change (skipn 2 (u "--" ++ k)) with k.
  now apply set_option_get_same.
Qed.

(** X17. A flag [--k] followed by a non-empty argument that does not start
    with [--] gives the option [k] that argument as its value, wherever the
    pair stands after the command, as long as [--k] does not come again
    later ([k] other than [__proto__]). *)
Theorem parseArgs_flag_with_value (command k value : jsstring)
  (before after : list jsstring) :
  str_eqb k (u "__proto__") = false ->
  is_empty value = false ->
  startsWith value (u "--") = false ->
  ~ In (u "--" ++ k) after ->
  assoc_get k (parseArgs (command :: before ++ (u "--" ++ k) :: value :: after))
  = Some (VStr value).
Proof.
  intros K E D N. unfold parseArgs, tl.
  now apply parse_from_flag_value.
Qed.

Lemma parseArgs_flag_with_value_witness :
  assoc_get (u "pack")
    (parseArgs [u "extract"; u "--file"; u "--pack"; u "items"; u "x"])
  = Some (VStr (u "items")).
Proof.
  apply (parseArgs_flag_with_value (u "extract") (u "pack") (u "items")
           [u "--file"] [u "x"]); try reflexivity.
  simpl. intros [H | []]. discriminate H.
Defined.

(** A flag [--k] with no value after it gives the option [k] the value
    [true]. *)
Lemma parseArgs_flag_alone (command k : jsstring) (before after : list jsstring) :
  str_eqb k (u "__proto__") = false ->
  no_value_next after = true ->
  ~ In (u "--" ++ k) after ->
  assoc_get k (parseArgs (command :: before ++ (u "--" ++ k) :: after))
  = Some (VBool true).
Proof.
  intros K V N. unfold parseArgs, tl.
  destruct (parse_from_reaches (u "--" ++ k) after before []
              (startsWith_app (u "--") k)) as [options H].
  unfold jsstring in *. rewrite H.
  rewrite parse_from_step, (startsWith_app (u "--") k).
  change (skipn 2 (u "--" ++ k)) with k.
  destruct after as [|a after']; [now apply set_option_get_same|].
  unfold no_value_next in V.
  assert (X : negb (is_empty a) && negb (startsWith a (u "--")) = false).
  { apply orb_true_iff in V. destruct V as [-> | ->];
      [reflexivity | apply andb_false_r]. }
  rewrite X, parse_from_other by exact N.
  now apply set_option_get_same.
Qed.

Section CommandLine.

Variable cwd : path.
Variable locate : jsstring -> path.

(** X18. [extract --pack <name>] with a name that is not one of the four
    packs: [handleExtract] rejects with "Invalid pack name" before any
    converter exists, and all that [run] does is print that error and exit
    with code 1: it makes no file system call and starts no deletion. *)
Theorem cli_rejects_unknown_pack (node script name : jsstring)
  (before after : list jsstring) :
  is_empty name = false ->
  startsWith name (u "--") = false ->
  ~ In (u "--pack") after ->
  existsb (str_eqb name) AVAILABLE_PACKS = false ->
  let cli :=
    new_dbConvertCLI
      (node :: script :: u "extract" :: before ++ u "--pack" :: name :: after)
  in
  cli_run cwd locate cli = Ran (Throw (Error (InvalidPackName name)))
  /\ dbConvertCLI_run cwd locate cli
     = Console (ErrorMessage (Error (InvalidPackName name)))
         (Ret (ProcessExit 1)).
Proof.
  intros E D N V cli.
  assert (R : cli_run cwd locate cli
              = Ran (Throw (Error (InvalidPackName name))));
    [|split; [exact R | unfold dbConvertCLI_run; rewrite R; reflexivity]].
  subst cli.
  pose proof (parse_from_flag_value (u "pack") name before after [] eq_refl
                E D N) as G.
  change (u "--" ++ u "pack") with (u "--pack") in G.
  unfold cli_run, new_dbConvertCLI.
  cbn [skipn cli_command cli_options part nth_error].
  change (str_eqb (u "extract") (u "extract")) with true. cbv iota.
  f_equal. unfold handleExtract, get_prop, parseArgs, tl.
  unfold jsstring in *. rewrite G.
  cbn [truthy]. rewrite E. cbn [negb new_dbConvert_of].
  unfold new_dbConvert, validatePackName. unfold jsstring in *.
  rewrite V. reflexivity.
Qed.

(** X19. [extract --pack] with no value after the flag: the option is
    [true], which is not a pack, and [handleExtract] rejects with the
    message "Invalid pack name: true" without any file system call. *)
Theorem cli_rejects_pack_without_value (node script : jsstring)
  (before after : list jsstring) :
  no_value_next after = true ->
  ~ In (u "--pack") after ->
  cli_run cwd locate
    (new_dbConvertCLI
       (node :: script :: u "extract" :: before ++ u "--pack" :: after))
  = Ran (Throw (Error (InvalidPackName (u "true")))).
Proof.
  intros V N.
  pose proof (parseArgs_flag_alone (u "extract") (u "pack") before after
                eq_refl V N) as G.
  change (u "--" ++ u "pack") with (u "--pack") in G.
  unfold cli_run, new_dbConvertCLI.
  cbn [skipn cli_command cli_options part nth_error].
  change (str_eqb (u "extract") (u "extract")) with true. cbv iota.
  f_equal. unfold handleExtract, get_prop. unfold jsstring in *. rewrite G.
  reflexivity.
Qed.

(** X20. [extract] with neither [--pack] nor [--file] among its arguments
    runs the converter of the pack [actors] on its default database file,
    whatever else is on the command line. *)
Theorem cli_defaults (node script : jsstring) (rest : list jsstring) :
  ~ In (u "--pack") rest ->
  ~ In (u "--file") rest ->
  cli_run cwd locate (new_dbConvertCLI (node :: script :: u "extract" :: rest))
  = Ran (extract cwd
           {| packName := u "actors";
              dbFile := fst (getPackPaths cwd (u "actors"));
              outputDir := snd (getPackPaths cwd (u "actors")) |}
           None).
Proof.
  intros NP NF. unfold cli_run, new_dbConvertCLI.
  cbn [skipn cli_command cli_options part nth_error].
  change (str_eqb (u "extract") (u "extract")) with true. cbv iota.
  f_equal. unfold handleExtract, get_prop, parseArgs, tl.
  rewrite (parse_from_other (u "pack") rest [] NP).
  rewrite (parse_from_other (u "file") rest [] NF).
  reflexivity.
Qed.

End CommandLine.

Lemma cli_rejects_unknown_pack_witness :
  dbConvertCLI_run example_cwd example_locate
    (new_dbConvertCLI
       [u "node"; u "dbConvert.mjs"; u "extract"; u "--pack"; u "widgets"])
  = Console (ErrorMessage (Error (InvalidPackName (u "widgets"))))
      (Ret (ProcessExit 1)).
Proof.
  apply (cli_rejects_unknown_pack example_cwd example_locate (u "node")
           (u "dbConvert.mjs") (u "widgets") [] []); try reflexivity.
  intros [].
Defined.

Lemma cli_rejects_pack_without_value_witness :
  cli_run example_cwd example_locate
    (new_dbConvertCLI
       [u "node"; u "dbConvert.mjs"; u "extract"; u "--pack"; u "--file"; u "a.db"])
  = Ran (Throw (Error (InvalidPackName (u "true")))).
Proof.
  apply (cli_rejects_pack_without_value example_cwd example_locate (u "node") (u "dbConvert.mjs")
           [] [u "--file"; u "a.db"]); try reflexivity.
  simpl. intros [H | [H | []]]; discriminate H.
Defined.

Lemma cli_defaults_witness :
  cli_run example_cwd example_locate
    (new_dbConvertCLI [u "node"; u "dbConvert.mjs"; u "extract"; u "--verbose"])
  = Ran (extract example_cwd
           {| packName := u "actors";
              dbFile := fst (getPackPaths example_cwd (u "actors"));
              outputDir := snd (getPackPaths example_cwd (u "actors")) |}
           None).
Proof.
  apply (cli_defaults example_cwd example_locate (u "node") (u "dbConvert.mjs") [u "--verbose"]);
    simpl; intros [H | []]; discriminate H.
Defined.
